(** * TeltonikaTCPServer: the session and the AVL decoders of [main.py]

    A shallow embedding of [main.py]: the byte reader [receive_all], the
    session [handle_client], the frame decoder [process_avl_data] and the
    record, GPS and IO element decoders, followed by the properties the
    specification states about them.

    Conventions.
    - Python [bytes] are [list byte]; Python integers are [Z]; offsets and
      loop counts are [nat].
    - A Python exception is the [Raise] outcome of the [result] monad.
    - A Python [dict] from integers to integers is a [gmap Z Z].
    - The float produced by [int / 10000000] is a binary64 [float]. *)

From Stdlib Require Import ZArith Strings.Byte Floats Uint63 Lia.
From stdpp Require Import base list gmap.

Local Open Scope Z_scope.

(** ** Bytes *)

Abbreviation bytes := (list byte).

(** [data[i]] on a [bytes] object yields an integer in 0..255. *)
Definition b2z (b : byte) : Z := Z.of_N (Byte.to_N b).

(** The byte with value [z mod 256] (used to write inputs and encoders). *)
Definition z2b (z : Z) : byte :=
  match Byte.of_N (Z.to_N (z mod 256)) with
  | Some b => b
  | None => x00
  end.

(** ** Exceptions *)

Inductive exn : Set :=
| IndexError    (* data[i] with i out of range *)
| StructError   (* struct.unpack on a buffer of the wrong size, struct.pack out of range *)
| ValueError.   (* datetime.utcfromtimestamp: "year 10000 is out of range" *)

Inductive result (A : Type) : Type :=
| Ret (a : A)
| Raise (e : exn).
Arguments Ret {A} a.
Arguments Raise {A} e.

#[global] Instance result_ret : MRet result := @Ret.
#[global] Instance result_bind : MBind result := λ A B f m,
  match m with
  | Ret a => f a
  | Raise e => Raise e
  end.

(** [data[i]]. *)
Definition index (data : bytes) (i : nat) : result Z :=
  match data !! i with
  | Some b => Ret (b2z b)
  | None => Raise IndexError
  end.

(** [data[a:a+n]]; [data[a:]] is [drop a data]. Slices never raise. *)
Definition slice (data : bytes) (a n : nat) : bytes := take n (drop a data).

(** ** The [struct] module, network byte order *)

Module Struct.

Inductive fmt : Set := fmt_B | fmt_H | fmt_I | fmt_Q | fmt_h | fmt_i.

Definition calcsize (f : fmt) : nat :=
  match f with
  | fmt_B => 1 | fmt_H | fmt_h => 2 | fmt_I | fmt_i => 4 | fmt_Q => 8
  end%nat.

Definition signed (f : fmt) : bool :=
  match f with
  | fmt_h | fmt_i => true
  | _ => false
  end.

(** Big-endian unsigned value of a byte string. *)
Definition be_uint (bs : bytes) : Z := foldl (λ acc b, acc * 256 + b2z b) 0 bs.

(** Two's complement reading of an unsigned [w]-byte value. *)
Definition to_signed (w : nat) (v : Z) : Z :=
  if v <? 2 ^ (8 * Z.of_nat w - 1) then v else v - 2 ^ (8 * Z.of_nat w).

(** [struct.unpack('!X', bs)[0]]. *)
Definition unpack (f : fmt) (bs : bytes) : result Z :=
  if decide (length bs = calcsize f)
  then Ret (if signed f then to_signed (calcsize f) (be_uint bs) else be_uint bs)
  else Raise StructError.

(** The [w] low-order bytes of [v], most significant first. *)
Fixpoint be_bytes (w : nat) (v : Z) : bytes :=
  match w with
  | O => []
  | S w' => be_bytes w' (v / 256) ++ [z2b v]
  end.

(** [struct.pack('!X', v)] for the unsigned formats. *)
Definition pack (f : fmt) (v : Z) : result bytes :=
  if bool_decide (0 ≤ v < 2 ^ (8 * Z.of_nat (calcsize f)))
  then Ret (be_bytes (calcsize f) v)
  else Raise StructError.

End Struct.

(** ** The socket

    What the peer does is a script of events, read from the head by
    successive [recv] calls: a chunk of bytes that has arrived, or an idle
    period longer than the timeout. After the last event the peer has closed
    the connection; an empty chunk is how a close shows to [recv]. *)

Inductive event : Type :=
| Data (bs : bytes)
| Timeout.

Definition socket := list event.

(** [sock.recv(bufsize)]: at most [bufsize] bytes of the chunk at the head;
    [None] stands for [socket.timeout] being raised. *)
Definition recv (sock : socket) (bufsize : nat) : option bytes * socket :=
  match sock with
  | [] => (Some [], [])
  | Timeout :: rest => (None, rest)
  | Data bs :: rest =>
      (Some (take bufsize bs),
       match drop bufsize bs with
       | [] => rest
       | unread => Data unread :: rest
       end)
  end.

(** The loop of [receive_all], entered with the bytes gathered so far. Every
    pass but the last takes the whole chunk at the head, so the recursion is
    on the script; [receive_loop_eq] below is the loop as the source writes it. *)
Fixpoint receive_loop (sock : socket) (length : nat) (data : bytes)
  : option bytes * socket :=
  if bool_decide (List.length data < length)%nat then
    match sock with
    | [] => (None, [])
    | Timeout :: rest => (None, rest)
    | Data bs :: rest =>
        match take (length - List.length data) bs with
        | [] => (None, rest)
        | more =>
            match drop (length - List.length data) bs with
            | [] => receive_loop rest length (data ++ more)
            | unread => (Some (data ++ more), Data unread :: rest)
            end
        end
    end
  else (Some data, sock).

Definition receive_all (sock : socket) (length : nat) : option bytes * socket :=
  receive_loop sock length [].

(** The bytes that arrive before the first timeout or close. *)
Fixpoint avail (sock : socket) : bytes :=
  match sock with
  | Data (b :: bs) :: rest => (b :: bs) ++ avail rest
  | _ => []
  end.

(** All the bytes of the script: the measure that bounds the session loop. *)
Fixpoint sock_bytes (sock : socket) : nat :=
  match sock with
  | [] => 0
  | Data bs :: rest => List.length bs + sock_bytes rest
  | Timeout :: rest => sock_bytes rest
  end%nat.

(** ** Library functions the decoders call *)

(** [a / b] on Python integers is correctly rounded true division; for
    operands below 2^53, as here, it is the binary64 quotient of the two
    integers converted exactly. *)
Definition float_of_Z (z : Z) : float :=
  if z <? 0 then PrimFloat.opp (PrimFloat.of_uint63 (Uint63.of_Z (- z)))
  else PrimFloat.of_uint63 (Uint63.of_Z z).

Definition truediv (a b : Z) : float := PrimFloat.div (float_of_Z a) (float_of_Z b).

(** [datetime.utcfromtimestamp(timestamp / 1000)] for an unsigned count of
    milliseconds: the instant is kept as that count (the source goes on to
    format it with [isoformat]); instants after year 9999 raise. *)
Definition utcfromtimestamp_ms (timestamp : Z) : result Z :=
  if timestamp <=? 253402300799999 then Ret timestamp else Raise ValueError.

(** [bs.decode('utf-8', errors='ignore')], as the list of code points of the
    resulting string: an ill-formed sequence is dropped up to the byte where
    it stops being well formed, a sequence cut by the end of the input is
    dropped whole. It never raises. *)
Definition is_continuation (c : Z) : bool := (0x80 <=? c) && (c <=? 0xBF).

Fixpoint decode_utf8_ignore (bs : bytes) : list Z :=
  match bs with
  | [] => []
  | b1 :: r1 =>
      let c1 := b2z b1 in
      if c1 <? 0x80 then c1 :: decode_utf8_ignore r1
      else if c1 <? 0xC2 then decode_utf8_ignore r1
      else if c1 <? 0xE0 then
        match r1 with
        | [] => []
        | b2 :: r2 =>
            let c2 := b2z b2 in
            if is_continuation c2
            then ((c1 - 0xC0) * 64 + (c2 - 0x80)) :: decode_utf8_ignore r2
            else decode_utf8_ignore r1
        end
      else if c1 <? 0xF0 then
        match r1 with
        | [] => []
        | b2 :: r2 =>
            let c2 := b2z b2 in
            if negb (is_continuation c2)
               || (if c2 <? 0xA0 then c1 =? 0xE0 else c1 =? 0xED)
            then decode_utf8_ignore r1
            else
              match r2 with
              | [] => []
              | b3 :: r3 =>
                  let c3 := b2z b3 in
                  if is_continuation c3
                  then ((c1 - 0xE0) * 4096 + (c2 - 0x80) * 64 + (c3 - 0x80))
                         :: decode_utf8_ignore r3
                  else decode_utf8_ignore r2
              end
        end
      else if c1 <? 0xF5 then
        match r1 with
        | [] => []
        | b2 :: r2 =>
            let c2 := b2z b2 in
            if negb (is_continuation c2)
               || (if c2 <? 0x90 then c1 =? 0xF0 else c1 =? 0xF4)
            then decode_utf8_ignore r1
            else
              match r2 with
              | [] => []
              | b3 :: r3 =>
                  let c3 := b2z b3 in
                  if negb (is_continuation c3) then decode_utf8_ignore r2
                  else
                    match r3 with
                    | [] => []
                    | b4 :: r4 =>
                        let c4 := b2z b4 in
                        if is_continuation c4
                        then ((c1 - 0xF0) * 262144 + (c2 - 0x80) * 4096
                              + (c3 - 0x80) * 64 + (c4 - 0x80))
                               :: decode_utf8_ignore r4
                        else decode_utf8_ignore r3
                    end
              end
        end
      else decode_utf8_ignore r1
  end.

(** ** The decoders *)

Record gps := {
  longitude : float;
  latitude : float;
  altitude : Z;
  angle : Z;
  satellites : Z;
  speed : Z
}.

Record record := {
  timestamp : Z;        (* milliseconds since the epoch *)
  priority : Z;
  gps_element : gps;
  io_element : gmap Z Z
}.

Definition parse_gps_element (data : bytes) : result gps :=
  lon ← Struct.unpack Struct.fmt_i (slice data 0 4);
  lat ← Struct.unpack Struct.fmt_i (slice data 4 4);
  altitude ← Struct.unpack Struct.fmt_h (slice data 8 2);
  angle ← Struct.unpack Struct.fmt_H (slice data 10 2);
  satellites ← index data 12;
  speed ← Struct.unpack Struct.fmt_H (slice data 13 2);
  Ret {| longitude := truediv lon 10000000;
         latitude := truediv lat 10000000;
         altitude := altitude;
         angle := angle;
         satellites := satellites;
         speed := speed |}.

(** The widths of the four buckets of the codec 8 IO element. *)
Inductive width : Set := W1 | W2 | W4 | W8.

Definition nbytes (w : width) : nat :=
  match w with W1 => 1 | W2 => 2 | W4 => 4 | W8 => 8 end%nat.

(** How a bucket reads its values at [offset]: [data[offset]] for one byte,
    [struct.unpack] on a slice for 2, 4 and 8. *)
Definition read_value (w : width) (data : bytes) (offset : nat) : result Z :=
  match w with
  | W1 => index data offset
  | W2 => Struct.unpack Struct.fmt_H (slice data offset 2)
  | W4 => Struct.unpack Struct.fmt_I (slice data offset 4)
  | W8 => Struct.unpack Struct.fmt_Q (slice data offset 8)
  end.

(** One bucket of the codec 8 IO element: [for _ in range(n)] over entries of
    a one-byte id and a value of width [w]. *)
Fixpoint bucket_loop (w : width) (n : nat) (data : bytes) (offset : nat)
    (io : gmap Z Z) : result (nat * gmap Z Z) :=
  match n with
  | O => Ret (offset, io)
  | S n' =>
      io_id ← index data offset;
      io_value ← read_value w data (offset + 1);
      bucket_loop w n' data (offset + 1 + nbytes w) (<[io_id := io_value]> io)
  end.

(** The properties loop of the codec 8 extended IO element. *)
Fixpoint properties_loop (n : nat) (data : bytes) (offset : nat) (io : gmap Z Z)
  : result (nat * gmap Z Z) :=
  match n with
  | O => Ret (offset, io)
  | S n' =>
      io_id ← index data offset;
      io_value_length ← index data (offset + 1);
      if io_value_length =? 1 then
        io_value ← index data (offset + 2);
        properties_loop n' data (offset + 2 + 1) (<[io_id := io_value]> io)
      else if io_value_length =? 2 then
        io_value ← Struct.unpack Struct.fmt_H (slice data (offset + 2) 2);
        properties_loop n' data (offset + 2 + 2) (<[io_id := io_value]> io)
      else if io_value_length =? 4 then
        io_value ← Struct.unpack Struct.fmt_I (slice data (offset + 2) 4);
        properties_loop n' data (offset + 2 + 4) (<[io_id := io_value]> io)
      else if io_value_length =? 8 then
        io_value ← Struct.unpack Struct.fmt_Q (slice data (offset + 2) 8);
        properties_loop n' data (offset + 2 + 8) (<[io_id := io_value]> io)
      else
        properties_loop n' data (offset + 2 + Z.to_nat io_value_length) io
  end.

(** Returns the IO map and the number of bytes consumed. *)
Definition parse_io_element (data : bytes) (codec_id : Z) : result (gmap Z Z * nat) :=
  if codec_id =? 0x08 then
    event_id ← index data 0;
    element_count ← index data 1;
    n1 ← index data 2;
    '(offset, io) ← bucket_loop W1 (Z.to_nat n1) data 3 ∅;
    n2 ← index data offset;
    '(offset, io) ← bucket_loop W2 (Z.to_nat n2) data (offset + 1) io;
    n4 ← index data offset;
    '(offset, io) ← bucket_loop W4 (Z.to_nat n4) data (offset + 1) io;
    n8 ← index data offset;
    '(offset, io) ← bucket_loop W8 (Z.to_nat n8) data (offset + 1) io;
    Ret (io, offset)
  else if codec_id =? 0x8E then
    event_id ← index data 0;
    properties_count ← index data 1;
    '(offset, io) ← properties_loop (Z.to_nat properties_count) data 2 ∅;
    Ret (io, offset)
  else Ret (∅, 0%nat).

(** The record comes back as a Python object the caller compares with [None]. *)
Definition parse_record (data : bytes) (codec_id : Z) : result (option record * nat) :=
  timestamp ← Struct.unpack Struct.fmt_Q (slice data 0 8);
  timestamp ← utcfromtimestamp_ms timestamp;
  priority ← index data 8;
  gps_element ← parse_gps_element (slice data 9 15);
  '(io_element, io_size) ← parse_io_element (drop 24 data) codec_id;
  Ret (Some {| timestamp := timestamp;
               priority := priority;
               gps_element := gps_element;
               io_element := io_element |},
       (24 + io_size)%nat).

(** [for _ in range(record_count)] of [process_avl_data]. *)
Fixpoint records_loop (n : nat) (data : bytes) (codec_id : Z) (offset : nat)
    (records : list record) : result (option (list record) * Z) :=
  match n with
  | O => Ret (Some records, codec_id)
  | S n' =>
      '(record, size) ← parse_record (drop offset data) codec_id;
      match record with
      | None => Ret (None, codec_id)
      | Some r => records_loop n' data codec_id (offset + size) (records ++ [r])
      end
  end.

Definition process_avl_data (data : bytes) : result (option (list record) * Z) :=
  codec_id ← index data 0;
  if codec_id =? 0x08 then
    record_count ← index data 1;
    records_loop (Z.to_nat record_count) data codec_id 2 []
  else if codec_id =? 0x8E then
    record_count ← Struct.unpack Struct.fmt_H (slice data 1 2);
    records_loop (Z.to_nat record_count) data codec_id 3 []
  else Ret (None, codec_id).

(** ** The session *)

Inductive close_reason : Set :=
| IncompletePreamble
| IncompleteIMEI
| NoDataLength
| IncompleteAVLData
| FailedToProcess
| Error (e : exn).   (* the [except Exception] handler *)

(** The guard [if not data or len(data) < n: ...] lets through exactly the
    buffers that are not [None], not empty and at least [n] bytes long. *)
Definition complete (data : option bytes) (n : nat) : option bytes :=
  match data with
  | Some (b :: bs) =>
      if bool_decide (length (b :: bs) < n)%nat then None else Some (b :: bs)
  | _ => None
  end.

(** The [while True] loop of [handle_client]: the messages sent to the device,
    in order, and why the loop was left. [None]: the fuel ran out. *)
Fixpoint avl_loop (fuel : nat) (sock : socket) : option (list bytes * close_reason) :=
  match fuel with
  | O => None
  | S fuel' =>
      let '(data_length_bytes, sock) := receive_all sock 4 in
      match complete data_length_bytes 4 with
      | None => Some ([], NoDataLength)
      | Some data_length_bytes =>
          match Struct.unpack Struct.fmt_I data_length_bytes with
          | Raise e => Some ([], Error e)
          | Ret data_length =>
              if data_length =? 0 then avl_loop fuel' sock
              else
                let '(data, sock) := receive_all sock (Z.to_nat data_length) in
                match complete data (Z.to_nat data_length) with
                | None => Some ([], IncompleteAVLData)
                | Some data =>
                    match process_avl_data data with
                    | Raise e => Some ([], Error e)
                    | Ret (None, _) => Some ([], FailedToProcess)
                    | Ret (Some records, _) =>
                        match Struct.pack Struct.fmt_I (Z.of_nat (length records)) with
                        | Raise e => Some ([], Error e)
                        | Ret response =>
                            '(sent, why) ← avl_loop fuel' sock;
                            Some (response :: sent, why)
                        end
                    end
                end
          end
      end
  end.

(** The loop with fuel enough for the whole script ([avl_loop_fuel]). *)
Definition session_loop (sock : socket) : option (list bytes * close_reason) :=
  avl_loop (S (sock_bytes sock)) sock.

Record session := {
  imei : option (list Z);   (* the decoded identity, once the handshake is through *)
  sent : list bytes;        (* every [client_socket.send], in order *)
  closed : close_reason
}.

Definition handle_client (sock : socket) : option session :=
  let '(preamble, sock) := receive_all sock 2 in
  match complete preamble 2 with
  | None => Some {| imei := None; sent := []; closed := IncompletePreamble |}
  | Some preamble =>
      match index preamble 1 with
      | Raise e => Some {| imei := None; sent := []; closed := Error e |}
      | Ret imei_length =>
          let '(imei_data, sock) := receive_all sock (Z.to_nat imei_length) in
          match complete imei_data (Z.to_nat imei_length) with
          | None => Some {| imei := None; sent := []; closed := IncompleteIMEI |}
          | Some imei_data =>
              let imei := decode_utf8_ignore imei_data in
              match Struct.pack Struct.fmt_B 0x01 with
              | Raise e => Some {| imei := Some imei; sent := []; closed := Error e |}
              | Ret ack =>
                  '(sent, why) ← session_loop sock;
                  Some {| imei := Some imei; sent := ack :: sent; closed := why |}
              end
          end
      end
  end.

(** * Wire formats and sample inputs

    What the properties below are stated with: the record-count field of a
    payload, the wire format of the codec 8 IO element as the specification
    describes it, and the concrete inputs the properties are run on. *)

(** The record-count field of a payload: for tag 0x08 the byte after the
    tag, for tag 0x8E the two bytes after it, most significant first. *)
Definition declared_count (data : bytes) : option Z :=
  match data with
  | tag :: c :: rest =>
      if b2z tag =? 0x08 then Some (b2z c)
      else if b2z tag =? 0x8E then
        match rest with
        | lo :: _ => Some (256 * b2z c + b2z lo)
        | [] => None
        end
      else None
  | _ => None
  end.


(** The binary64 number written [52.52] in Python. *)
Definition float_52_52 : float := 0x1.a428f5c28f5c3p+5%float.

(** Longitude 525200000 (0x1F4DEA80), everything else zero. *)
Definition gps_52_52 : bytes := Struct.be_bytes 4 525200000 ++ replicate 11 x00.

(** The example of the specification: an entry of id 5 declaring 16 value
    bytes, followed by an entry of id 6 with the one-byte value 9. *)
Definition io_with_16_byte_entry : bytes :=
  [x00; x02; x05; x10] ++ replicate 16 xff ++ [x06; x01; x09].

(** The wire format of the codec 8 IO element, as the specification lays it
    out: event id, element count, then the buckets of 1, 2, 4 and 8 byte
    values, each a count byte followed by its (id, value) entries. *)
Definition encode_entry (w : width) (e : Z * Z) : bytes :=
  z2b e.1 :: Struct.be_bytes (nbytes w) e.2.

Fixpoint encode_entries (w : width) (es : list (Z * Z)) : bytes :=
  match es with
  | [] => []
  | e :: es => encode_entry w e ++ encode_entries w es
  end.

Definition encode_bucket (w : width) (es : list (Z * Z)) : bytes :=
  z2b (Z.of_nat (length es)) :: encode_entries w es.

Definition encode_io8 (event_id element_count : byte) (e1 e2 e4 e8 : list (Z * Z)) : bytes :=
  event_id :: element_count ::
    encode_bucket W1 e1 ++ encode_bucket W2 e2 ++ encode_bucket W4 e4 ++ encode_bucket W8 e8.

(** An entry that fits its bucket: a one-byte id and a value of the width. *)
Definition fits (w : width) (e : Z * Z) : Prop :=
  0 ≤ e.1 < 256 ∧ 0 ≤ e.2 < 2 ^ (8 * Z.of_nat (nbytes w)).

(** Entries written into a map one after the other, as [io_element[io_id] =
    io_value] does. *)
Definition store (io : gmap Z Z) (es : list (Z * Z)) : gmap Z Z :=
  foldl (λ m e, <[e.1 := e.2]> m) io es.

(** A device with IMEI 356307042441013 that identifies itself, sends a
    keepalive and goes idle. *)
Definition imei_bytes : bytes :=
  [x33; x35; x36; x33; x30; x37; x30; x34; x32; x34; x34; x31; x30; x31; x33].

Definition idle_device : socket :=
  [Data [x00; x0f]; Data imei_bytes; Data [x00; x00; x00; x00]; Timeout].

(** The codec 8 sample packet of the vendor's protocol description, from the
    codec tag on: one record with five IO entries, then the repeated count. *)
Definition sample_frame : bytes :=
  [x08; x01;
   x00; x00; x01; x6b; x40; xd8; xea; x30;                       (* timestamp *)
   x01;                                                          (* priority *)
   x00; x00; x00; x00; x00; x00; x00; x00; x00; x00; x00; x00; x00; x00; x00;
   x01; x05;                                                     (* event, count *)
   x02; x15; x03; x01; x01;
   x01; x42; x5e; x0f;
   x01; xf1; x00; x00; x60; x1a;
   x01; x4e; x00; x00; x00; x00; x00; x00; x00; x00;
   x01].

(** ** Wire formats of the other elements and of whole frames *)

(** An acknowledgement of the frame loop: a record count below 65536 as four
    big-endian bytes. *)
Definition is_ack (message : bytes) : Prop :=
  ∃ n, 0 ≤ n < 65536 ∧ message = Struct.be_bytes 4 n.

(** The GPS element on the wire: longitude and latitude on four bytes,
    altitude and angle on two, satellites on one, speed on two; negative
    values in two's complement. *)
Definition encode_gps (lon lat alt ang sat spd : Z) : bytes :=
  Struct.be_bytes 4 lon ++ Struct.be_bytes 4 lat ++ Struct.be_bytes 2 alt
    ++ Struct.be_bytes 2 ang ++ z2b sat :: Struct.be_bytes 2 spd.

(** The wire format of the codec 8 extended IO element: an entry is an id, a
    length byte and that many value bytes; it carries a value when the
    length is 1, 2, 4 or 8 and is opaque otherwise. *)
Inductive property : Type :=
| Value (io_id : Z) (w : width) (v : Z)
| Opaque (io_id : Z) (raw : bytes).

(** An entry on the wire. *)
Definition encode_property (p : property) : bytes :=
  match p with
  | Value io_id w v =>
      z2b io_id :: z2b (Z.of_nat (nbytes w)) :: Struct.be_bytes (nbytes w) v
  | Opaque io_id raw => z2b io_id :: z2b (Z.of_nat (length raw)) :: raw
  end.

Fixpoint encode_properties (ps : list property) : bytes :=
  match ps with
  | [] => []
  | p :: ps => encode_property p ++ encode_properties ps
  end.

(** The element: event id, number of entries, the entries. *)
Definition encode_io8e (event_id : byte) (ps : list property) : bytes :=
  event_id :: z2b (Z.of_nat (length ps)) :: encode_properties ps.

(** An entry that fits the format: a one-byte id, and a value of its width
    or an opaque run whose length fits a byte and is none of 1, 2, 4, 8. *)
Definition property_ok (p : property) : Prop :=
  match p with
  | Value io_id w v => 0 ≤ io_id < 256 ∧ 0 ≤ v < 2 ^ (8 * Z.of_nat (nbytes w))
  | Opaque io_id raw =>
      0 ≤ io_id < 256 ∧ (length raw ≤ 255)%nat ∧
      length raw ≠ 1%nat ∧ length raw ≠ 2%nat ∧ length raw ≠ 4%nat ∧ length raw ≠ 8%nat
  end.

(** The entries that carry a value, in order. *)
Fixpoint property_values (ps : list property) : list (Z * Z) :=
  match ps with
  | [] => []
  | Value io_id _ v :: ps => (io_id, v) :: property_values ps
  | Opaque _ _ :: ps => property_values ps
  end.

(** The keys and values an IO map can hold. *)
Definition io_entry_ok (k v : Z) : Prop := 0 ≤ k < 256 ∧ 0 ≤ v < 2 ^ 64.

(** The fixed part of a record on the wire: timestamp, priority and the GPS
    fields as integers. *)
Record fixed_part := {
  fp_timestamp : Z;
  fp_priority : Z;
  fp_lon : Z;
  fp_lat : Z;
  fp_alt : Z;
  fp_angle : Z;
  fp_sat : Z;
  fp_speed : Z
}.

(** The 24 bytes of the fixed part. *)
Definition encode_fixed (fp : fixed_part) : bytes :=
  Struct.be_bytes 8 (fp_timestamp fp) ++ z2b (fp_priority fp) ::
    encode_gps (fp_lon fp) (fp_lat fp) (fp_alt fp) (fp_angle fp) (fp_sat fp) (fp_speed fp).

(** Fields that fit their widths, and a timestamp [datetime] can hold. *)
Definition fixed_ok (fp : fixed_part) : Prop :=
  0 ≤ fp_timestamp fp ≤ 253402300799999 ∧ 0 ≤ fp_priority fp < 256 ∧
  - 2 ^ 31 ≤ fp_lon fp < 2 ^ 31 ∧ - 2 ^ 31 ≤ fp_lat fp < 2 ^ 31 ∧
  - 2 ^ 15 ≤ fp_alt fp < 2 ^ 15 ∧ 0 ≤ fp_angle fp < 2 ^ 16 ∧
  0 ≤ fp_sat fp < 256 ∧ 0 ≤ fp_speed fp < 2 ^ 16.

(** The record a fixed part and an IO map decode to. *)
Definition decoded (fp : fixed_part) (io : gmap Z Z) : record :=
  {| timestamp := fp_timestamp fp;
     priority := fp_priority fp;
     gps_element :=
       {| longitude := truediv (fp_lon fp) 10000000;
          latitude := truediv (fp_lat fp) 10000000;
          altitude := fp_alt fp;
          angle := fp_angle fp;
          satellites := fp_sat fp;
          speed := fp_speed fp |};
     io_element := io |}.

(** Records one after the other, each a fixed part followed by its IO
    element as [io_enc] writes it. *)
Fixpoint encode_records {T : Type} (io_enc : T → bytes) (rs : list (fixed_part * T)) : bytes :=
  match rs with
  | [] => []
  | (fp, t) :: rs => (encode_fixed fp ++ io_enc t) ++ encode_records io_enc rs
  end.

Definition decoded_records {T : Type} (io_dec : T → gmap Z Z) (rs : list (fixed_part * T))
  : list record :=
  map (λ r, decoded r.1 (io_dec r.2)) rs.

(** The IO element of a codec 8 record. *)
Record buckets := {
  b_event : byte;
  b_count : byte;
  b_1 : list (Z * Z);
  b_2 : list (Z * Z);
  b_4 : list (Z * Z);
  b_8 : list (Z * Z)
}.

Definition encode_buckets (b : buckets) : bytes :=
  encode_io8 (b_event b) (b_count b) (b_1 b) (b_2 b) (b_4 b) (b_8 b).

Definition buckets_ok (b : buckets) : Prop :=
  ((length (b_1 b) ≤ 255)%nat ∧ Forall (fits W1) (b_1 b)) ∧
  ((length (b_2 b) ≤ 255)%nat ∧ Forall (fits W2) (b_2 b)) ∧
  ((length (b_4 b) ≤ 255)%nat ∧ Forall (fits W4) (b_4 b)) ∧
  ((length (b_8 b) ≤ 255)%nat ∧ Forall (fits W8) (b_8 b)).

Definition buckets_map (b : buckets) : gmap Z Z :=
  store ∅ (b_1 b ++ b_2 b ++ b_4 b ++ b_8 b).

(** A codec 8 payload: tag, one count byte, the records. *)
Definition encode_frame8 (rs : list (fixed_part * buckets)) : bytes :=
  x08 :: z2b (Z.of_nat (length rs)) :: encode_records encode_buckets rs.

(** A codec 8 extended payload: tag, two count bytes, the records. *)
Definition encode_frame8e (rs : list (fixed_part * (byte * list property))) : bytes :=
  x8e :: Struct.be_bytes 2 (Z.of_nat (length rs))
    ++ encode_records (λ io, encode_io8e io.1 io.2) rs.

(** The record of the sample packet, as fields. *)
Definition sample_reading : fixed_part * buckets :=
  ({| fp_timestamp := 1560161086000; fp_priority := 1;
      fp_lon := 0; fp_lat := 0; fp_alt := 0; fp_angle := 0; fp_sat := 0; fp_speed := 0 |},
   {| b_event := x01; b_count := x05;
      b_1 := [(21, 3); (1, 1)]; b_2 := [(66, 24079)];
      b_4 := [(241, 24602)]; b_8 := [(78, 0)] |}).

(** Two codec 8 extended records, the second with an opaque entry. *)
Definition extended_readings : list (fixed_part * (byte * list property)) :=
  [({| fp_timestamp := 1560161086000; fp_priority := 0;
       fp_lon := 525200000; fp_lat := 134050000; fp_alt := 34; fp_angle := 90;
       fp_sat := 7; fp_speed := 50 |},
    (x00, [Value 239 W1 1; Value 16 W4 123456]));
   ({| fp_timestamp := 1560161087000; fp_priority := 2;
       fp_lon := -1225000000; fp_lat := -337000000; fp_alt := -5; fp_angle := 359;
       fp_sat := 0; fp_speed := 0 |},
    (xef, [Opaque 200 [x01; x02; x03]; Value 78 W8 18446744073709551615]))].

(** What the device sends in one cycle: a keepalive, or a frame whose
    payload decodes to some records. *)
Inductive cycle : Type :=
| Keepalive
| Frame (payload : bytes) (records : list record).

Definition cycle_bytes (c : cycle) : bytes :=
  match c with
  | Keepalive => [x00; x00; x00; x00]
  | Frame payload _ => Struct.be_bytes 4 (Z.of_nat (length payload)) ++ payload
  end.

Definition cycle_ok (c : cycle) : Prop :=
  match c with
  | Keepalive => True
  | Frame payload records =>
      Z.of_nat (length payload) < 2 ^ 32 ∧
      ∃ codec_id, process_avl_data payload = Ret (Some records, codec_id)
  end.

Fixpoint cycles_bytes (cs : list cycle) : bytes :=
  match cs with
  | [] => []
  | c :: cs => cycle_bytes c ++ cycles_bytes cs
  end.

(** One acknowledgement per frame, none per keepalive. *)
Fixpoint cycles_acks (cs : list cycle) : list bytes :=
  match cs with
  | [] => []
  | Keepalive :: cs => cycles_acks cs
  | Frame _ records :: cs => Struct.be_bytes 4 (Z.of_nat (length records)) :: cycles_acks cs
  end.


(** * Properties *)

(** ** Bytes and big-endian integers *)

Lemma b2z_range (b : byte) : 0 ≤ b2z b < 256.
Proof.
  unfold b2z. pose proof (Byte.to_N_bounded b) as H.
  change 256 with (Z.of_N 256). lia.
Qed.

Lemma b2z_z2b (z : Z) : 0 ≤ z < 256 → b2z (z2b z) = z.
Proof.
  intros Hz. unfold b2z, z2b. rewrite Z.mod_small by done.
  destruct (Byte.of_N (Z.to_N z)) as [b|] eqn:E.
  - apply Byte.to_of_N in E. lia.
  - apply Byte.of_N_None_iff in E. lia.
Qed.

Lemma z2b_b2z (b : byte) : z2b (b2z b) = b.
Proof.
  unfold b2z, z2b. rewrite Z.mod_small by apply b2z_range.
  by rewrite N2Z.id, Byte.of_to_N.
Qed.

Lemma z2b_mod (z : Z) : z2b (z mod 256) = z2b z.
Proof. unfold z2b. by rewrite Z.mod_mod. Qed.

Lemma index_app_r (pre l : bytes) (i : nat) :
  index (pre ++ l) (length pre + i) = index l i.
Proof. unfold index. by rewrite lookup_app_r, Nat.add_comm, Nat.add_sub by lia. Qed.

Lemma index_cons_0 (b : byte) (l : bytes) : index (b :: l) 0 = Ret (b2z b).
Proof. done. Qed.

Lemma slice_app_r (pre l : bytes) (i n : nat) :
  slice (pre ++ l) (length pre + i) n = slice l i n.
Proof. unfold slice. by rewrite drop_app_add. Qed.

Lemma slice_exact (l post : bytes) : slice (l ++ post) 0 (length l) = l.
Proof. unfold slice. by rewrite drop_0, take_app_length. Qed.

Module StructFacts.
Import Struct.

Lemma be_uint_snoc (bs : bytes) (b : byte) :
  be_uint (bs ++ [b]) = be_uint bs * 256 + b2z b.
Proof. unfold be_uint. by rewrite foldl_app. Qed.

Lemma length_be_bytes (w : nat) (v : Z) : length (be_bytes w v) = w.
Proof.
  revert v. induction w as [|w IH]; intros v; simpl; [done|].
  rewrite length_app, IH. simpl. lia.
Qed.

Lemma be_uint_be_bytes (w : nat) (v : Z) :
  0 ≤ v < 2 ^ (8 * Z.of_nat w) → be_uint (be_bytes w v) = v.
Proof.
  revert v. induction w as [|w IH]; intros v Hv.
  - simpl in *. unfold be_uint. simpl. lia.
  - simpl. rewrite be_uint_snoc, <- z2b_mod, b2z_z2b by (apply Z.mod_pos_bound; lia).
    rewrite IH; [pose proof (Z.div_mod v 256); lia|].
    replace (8 * Z.of_nat (S w)) with (8 * Z.of_nat w + 8) in Hv by lia.
    rewrite Z.pow_add_r in Hv by lia. change (2 ^ 8) with 256 in Hv.
    split; [apply Z.div_pos; lia|].
    apply Z.div_lt_upper_bound; lia.
Qed.

Lemma be_uint_range (bs : bytes) : 0 ≤ be_uint bs < 2 ^ (8 * Z.of_nat (length bs)).
Proof.
  induction bs as [|b bs IH] using rev_ind.
  - unfold be_uint. simpl. lia.
  - rewrite be_uint_snoc, length_app. simpl.
    replace (8 * Z.of_nat (length bs + 1)) with (8 * Z.of_nat (length bs) + 8) by lia.
    rewrite Z.pow_add_r by lia. change (2 ^ 8) with 256.
    pose proof (b2z_range b). nia.
Qed.

(** Unpacking what an unsigned format packed gives the value back. *)
Lemma unpack_be_bytes (f : fmt) (v : Z) :
  signed f = false → 0 ≤ v < 2 ^ (8 * Z.of_nat (calcsize f)) →
  unpack f (be_bytes (calcsize f) v) = Ret v.
Proof.
  intros Hs Hv. unfold unpack.
  rewrite length_be_bytes, decide_True by done.
  by rewrite Hs, be_uint_be_bytes.
Qed.

End StructFacts.

(** ** The byte reader *)

(** The loop as [receive_all] writes it: while the buffer is short, [recv] the
    missing count; a timeout or an empty read gives [None], anything else is
    appended. *)
Lemma receive_loop_eq (sock : socket) (length : nat) (data : bytes) :
  receive_loop sock length data =
  if bool_decide (List.length data < length)%nat then
    match recv sock (length - List.length data) with
    | (None, sock') => (None, sock')
    | (Some [], sock') => (None, sock')
    | (Some more, sock') => receive_loop sock' length (data ++ more)
    end
  else (Some data, sock).
Proof.
  destruct sock as [|[bs|] rest]; simpl; case_bool_decide as Hlt; try done.
  remember (length - List.length data)%nat as k eqn:Hk.
  destruct (take k bs) as [|m more] eqn:Ht.
  - destruct bs as [|b bs]; [by rewrite drop_nil|].
    destruct k; [lia|done].
  - destruct (drop k bs) as [|u unread] eqn:Hd; [done|].
    assert (List.length (m :: more) = k) as Hmk.
    { rewrite <- Ht, length_take. apply (f_equal List.length) in Hd.
      rewrite length_drop in Hd. simpl in Hd. lia. }
    simpl. rewrite bool_decide_false; [done|].
    rewrite length_app. simpl in *. lia.
Qed.

Lemma avail_data (bs : bytes) (rest : socket) :
  bs ≠ [] → avail (Data bs :: rest) = bs ++ avail rest.
Proof. by destruct bs. Qed.

(** What the loop returns, in terms of the bytes that arrive before the first
    timeout or close. *)
Lemma receive_loop_spec (sock : socket) (length : nat) (data : bytes) :
  (List.length data ≤ length)%nat →
  let need := (length - List.length data)%nat in
  if decide (need ≤ List.length (avail sock))%nat then
    ∃ sock', receive_loop sock length data = (Some (data ++ take need (avail sock)), sock')
             ∧ avail sock' = drop need (avail sock)
             ∧ (sock_bytes sock' + need = sock_bytes sock)%nat
  else ∃ sock', receive_loop sock length data = (None, sock').
Proof.
  revert data. induction sock as [|[bs|] rest IH]; intros data Hle; cbv zeta.
  - simpl. case_bool_decide; case_decide; simpl in *; try lia; eauto.
    exists []. replace (length - List.length data)%nat with 0%nat by lia.
    by rewrite app_nil_r.
  - simpl receive_loop. remember (length - List.length data)%nat as need eqn:Hneed.
    case_bool_decide as Hlt.
    + destruct (take need bs) as [|m more] eqn:Ht.
      { assert (bs = []) as ->.
        { destruct bs; [done|]. destruct need; [lia|done]. }
        simpl. rewrite decide_False by lia. eauto. }
      assert (bs ≠ []) as Hne by (intros ->; by rewrite take_nil in Ht).
      rewrite avail_data by done.
      destruct (drop need bs) as [|u unread] eqn:Hd.
      * assert (List.length bs ≤ need)%nat as Hbs.
        { apply (f_equal List.length) in Hd. rewrite length_drop in Hd. simpl in Hd. lia. }
        assert (m :: more = bs) as Hm by (rewrite <- Ht; by apply take_ge).
        rewrite Hm.
        specialize (IH (data ++ bs)). rewrite length_app in IH.
        specialize (IH ltac:(lia)). cbv zeta in IH.
        replace (length - (List.length data + List.length bs))%nat
          with (need - List.length bs)%nat in IH by lia.
        rewrite length_app.
        case_decide as Hn1; case_decide as Hn2; try lia.
        -- destruct IH as (sock' & -> & Ha & Hb). exists sock'. split_and!.
           ++ by rewrite take_app_ge, <- app_assoc by done.
           ++ by rewrite drop_app_ge by done.
           ++ simpl. lia.
        -- done.
      * assert (need < List.length bs)%nat as Hbs.
        { apply (f_equal List.length) in Hd. rewrite length_drop in Hd. simpl in Hd. lia. }
        rewrite length_app. rewrite decide_True by lia.
        exists (Data (u :: unread) :: rest). split_and!.
        -- by rewrite take_app_le, Ht by lia.
        -- rewrite drop_app_le by lia. by rewrite Hd.
        -- simpl. apply (f_equal List.length) in Hd. rewrite length_drop in Hd.
           simpl in Hd. lia.
    + replace need with 0%nat by lia. rewrite decide_True by lia.
      exists (Data bs :: rest). by rewrite take_0, app_nil_r, drop_0.
  - simpl. case_bool_decide; case_decide; simpl in *; try lia; eauto.
    exists (Timeout :: rest). replace (length - List.length data)%nat with 0%nat by lia.
    by rewrite app_nil_r.
Qed.

Lemma receive_all_some (sock : socket) (n : nat) :
  (n ≤ length (avail sock))%nat →
  ∃ sock', receive_all sock n = (Some (take n (avail sock)), sock')
           ∧ avail sock' = drop n (avail sock)
           ∧ (sock_bytes sock' + n = sock_bytes sock)%nat.
Proof.
  intros Hn. pose proof (receive_loop_spec sock n [] ltac:(simpl; lia)) as H.
  simpl in H. rewrite Nat.sub_0_r in H. by rewrite decide_True in H.
Qed.

Lemma receive_all_none (sock : socket) (n : nat) :
  (length (avail sock) < n)%nat → ∃ sock', receive_all sock n = (None, sock').
Proof.
  intros Hn. pose proof (receive_loop_spec sock n [] ltac:(simpl; lia)) as H.
  simpl in H. rewrite Nat.sub_0_r in H. rewrite decide_False in H by lia. done.
Qed.

(** A successful read takes its bytes off the script. *)
Lemma receive_all_bytes (sock sock' : socket) (n : nat) (data : bytes) :
  receive_all sock n = (Some data, sock') →
  length data = n ∧ data = take n (avail sock) ∧ avail sock' = drop n (avail sock)
  ∧ (sock_bytes sock' + n = sock_bytes sock)%nat.
Proof.
  intros H. destruct (decide (n ≤ length (avail sock))%nat) as [Hn|Hn].
  - destruct (receive_all_some sock n Hn) as (s & Hs & Ha & Hb).
    rewrite Hs in H. injection H as <- <-. split_and!; try done.
    rewrite length_take. lia.
  - destruct (receive_all_none sock n ltac:(lia)) as (s & Hs). congruence.
Qed.

(** ** The session loop terminates *)

Lemma complete_Some (data : option bytes) (n : nat) (d : bytes) :
  complete data n = Some d → data = Some d ∧ d ≠ [] ∧ (n ≤ length d)%nat.
Proof.
  destruct data as [[|b bs]|]; simpl; try done.
  case_bool_decide; [done|]. intros [= <-]. split_and!; [done|done|simpl in *; lia].
Qed.

Lemma complete_exact (d : bytes) (n : nat) :
  d ≠ [] → length d = n → complete (Some d) n = Some d.
Proof.
  intros Hd Hn. destruct d as [|b bs]; [done|]. simpl complete.
  rewrite bool_decide_false; [done|]. simpl in *. lia.
Qed.

Lemma complete_receive_all (sock sock' : socket) (n : nat) (data : option bytes) (d : bytes) :
  receive_all sock n = (data, sock') → complete data n = Some d →
  d ≠ [] ∧ length d = n ∧ (sock_bytes sock' + n = sock_bytes sock)%nat.
Proof.
  intros Hr Hc. apply complete_Some in Hc as (-> & Hd & _).
  apply receive_all_bytes in Hr as (? & _ & _ & ?). done.
Qed.

(** Case analysis along one pass of [avl_loop], and the bytes the reads of
    that pass took off the script. *)
Ltac loop_cases :=
  repeat match goal with
  | |- context [if ?z =? 0 then _ else _] => destruct (Z.eqb_spec z 0)
  | |- context [let '(_, _) := ?r in _] => destruct r as [? ?] eqn:?
  | |- context [match complete ?d ?n with _ => _ end] => destruct (complete d n) eqn:?
  | |- context [match Struct.unpack ?f ?d with _ => _ end] => destruct (Struct.unpack f d) eqn:?
  | |- context [match Struct.pack ?f ?d with _ => _ end] => destruct (Struct.pack f d) eqn:?
  | |- context [match process_avl_data ?d with _ => _ end] =>
      destruct (process_avl_data d) as [[[?|] ?]|?] eqn:?
  end.

Ltac consumed :=
  repeat match goal with
  | Hr : receive_all _ ?n = (?o, _), Hc : complete ?o ?n = Some _ |- _ =>
      destruct (complete_receive_all _ _ _ _ _ Hr Hc) as (_ & _ & ?); clear Hc
  end.

(** Every pass that goes round again has read at least the four bytes of a
    length field, so fuel above the size of the script is never used up. *)
Lemma avl_loop_fuel (fuel : nat) (sock : socket) :
  (sock_bytes sock < fuel)%nat → is_Some (avl_loop fuel sock).
Proof.
  revert sock. induction fuel as [|fuel IH]; intros sock Hf; [lia|].
  simpl. loop_cases; try done; consumed.
  - apply IH. lia.
  - match goal with
    | |- context [avl_loop fuel ?s] => destruct (IH s ltac:(lia)) as [[? ?] ->]
    end. done.
Qed.

(** More fuel does not change a result. *)
Lemma avl_loop_mono (fuel fuel' : nat) (sock : socket) (r : list bytes * close_reason) :
  avl_loop fuel sock = Some r → (fuel ≤ fuel')%nat → avl_loop fuel' sock = Some r.
Proof.
  revert fuel' sock r. induction fuel as [|fuel IH]; intros fuel' sock r H Hle; [done|].
  destruct fuel' as [|fuel']; [lia|]. revert H. simpl. loop_cases; try done.
  - intros H. apply IH; [done|lia].
  - match goal with
    | |- context [avl_loop fuel ?s] => destruct (avl_loop fuel s) as [[? ?]|] eqn:E
    end; [|done].
    rewrite (IH fuel' _ _ E) by lia. done.
Qed.

Lemma avl_loop_session_loop (fuel : nat) (sock : socket) :
  (sock_bytes sock < fuel)%nat → avl_loop fuel sock = session_loop sock.
Proof.
  intros Hf. unfold session_loop.
  destruct (avl_loop_fuel (S (sock_bytes sock)) sock ltac:(lia)) as [r Hr].
  rewrite Hr. apply (avl_loop_mono _ _ _ _ Hr). lia.
Qed.

Lemma session_loop_total (sock : socket) : is_Some (session_loop sock).
Proof. apply avl_loop_fuel. lia. Qed.

(** [handle_client] returns for every script. *)
Lemma handle_client_total (sock : socket) : is_Some (handle_client sock).
Proof.
  unfold handle_client.
  repeat match goal with
  | |- context [let '(_, _) := ?r in _] => destruct r as [? ?] eqn:?
  | |- context [match complete ?d ?n with _ => _ end] => destruct (complete d n) eqn:?
  | |- context [match index ?d ?n with _ => _ end] => destruct (index d n) eqn:?
  | |- context [match Struct.pack ?f ?d with _ => _ end] => destruct (Struct.pack f d) eqn:?
  end; try done.
  match goal with
  | |- context [session_loop ?s] => destruct (session_loop_total s) as [[? ?] ->]
  end. done.
Qed.

(** ** Reading from the wire *)

(** When the bytes [d] are the next to arrive, reading [length d] bytes
    returns them and leaves the script just after them. *)
Lemma receive_all_prefix (sock : socket) (d more : bytes) :
  avail sock = d ++ more →
  ∃ sock', receive_all sock (length d) = (Some d, sock')
           ∧ avail sock' = more
           ∧ (sock_bytes sock' + length d = sock_bytes sock)%nat.
Proof.
  intros Ha.
  destruct (receive_all_some sock (length d)) as (sock' & Hr & Ha' & Hb).
  { rewrite Ha, length_app. lia. }
  exists sock'. rewrite Ha in Hr, Ha'.
  by rewrite take_app_length in Hr; rewrite drop_app_length in Ha'.
Qed.

Lemma unpack_length (f : Struct.fmt) (bs : bytes) (v : Z) :
  Struct.unpack f bs = Ret v → length bs = Struct.calcsize f.
Proof. unfold Struct.unpack. by case_decide. Qed.

(** One pass of the loop over a frame with a non-empty payload. *)
Lemma avl_loop_frame (sock : socket) (dlb payload more : bytes) :
  Struct.unpack Struct.fmt_I dlb = Ret (Z.of_nat (length payload)) →
  payload ≠ [] →
  avail sock = dlb ++ payload ++ more →
  ∃ sock', avail sock' = more ∧ (sock_bytes sock' < sock_bytes sock)%nat ∧
    ∀ fuel, avl_loop (S fuel) sock =
      match process_avl_data payload with
      | Raise e => Some ([], Error e)
      | Ret (None, _) => Some ([], FailedToProcess)
      | Ret (Some records, _) =>
          match Struct.pack Struct.fmt_I (Z.of_nat (length records)) with
          | Raise e => Some ([], Error e)
          | Ret response =>
              '(sent, why) ← avl_loop fuel sock'; Some (response :: sent, why)
          end
      end.
Proof.
  intros Hu Hp Ha.
  pose proof (unpack_length _ _ _ Hu) as Hl. simpl in Hl.
  destruct (receive_all_prefix sock dlb _ Ha) as (sock1 & Hr1 & Ha1 & Hb1).
  destruct (receive_all_prefix sock1 payload _ Ha1) as (sock2 & Hr2 & Ha2 & Hb2).
  exists sock2. split_and!; [done|lia|]. intros fuel.
  rewrite Hl in Hr1. simpl. rewrite Hr1.
  rewrite complete_exact by (done || by intros ->).
  rewrite Hu. destruct (Z.eqb_spec (Z.of_nat (length payload)) 0) as [H0|_].
  { destruct payload; [done|simpl in H0; lia]. }
  rewrite Nat2Z.id, Hr2, complete_exact by done. done.
Qed.

Lemma session_loop_frame (sock : socket) (dlb payload more : bytes) :
  Struct.unpack Struct.fmt_I dlb = Ret (Z.of_nat (length payload)) →
  payload ≠ [] →
  avail sock = dlb ++ payload ++ more →
  ∃ sock', avail sock' = more ∧
    session_loop sock =
      match process_avl_data payload with
      | Raise e => Some ([], Error e)
      | Ret (None, _) => Some ([], FailedToProcess)
      | Ret (Some records, _) =>
          match Struct.pack Struct.fmt_I (Z.of_nat (length records)) with
          | Raise e => Some ([], Error e)
          | Ret response =>
              '(sent, why) ← session_loop sock'; Some (response :: sent, why)
          end
      end.
Proof.
  intros Hu Hp Ha.
  destruct (avl_loop_frame sock dlb payload more Hu Hp Ha) as (sock' & Ha' & Hb & Hstep).
  exists sock'. split; [done|]. unfold session_loop at 1. rewrite Hstep.
  by rewrite (avl_loop_session_loop (sock_bytes sock) sock') by lia.
Qed.

(** ** The claims about the session *)

(** C3. For every byte count [n], [receive_all] returns either exactly [n]
    bytes, which are the first [n] bytes to arrive, in arrival order, or
    [None], and [None] exactly when fewer than [n] bytes arrive before the
    peer closes or the socket times out; it never returns a shorter buffer. *)
Theorem receive_all_exact_or_none (sock : socket) (n : nat) :
  match (receive_all sock n).1 with
  | Some data => length data = n ∧ data = take n (avail sock)
  | None => (length (avail sock) < n)%nat
  end.
Proof.
  destruct (decide (n ≤ length (avail sock))%nat) as [Hn|Hn].
  - destruct (receive_all_some sock n Hn) as (sock' & -> & _). simpl.
    split; [|done]. rewrite length_take. lia.
  - destruct (receive_all_none sock n ltac:(lia)) as (sock' & ->). simpl. lia.
Qed.

(** An empty identity does not pass the guard on the identity read: the
    session is closed as incomplete and nothing is sent. *)
Lemma handshake_rejects_empty_identity (sock : socket) (x : byte) (more : bytes) :
  avail sock = x :: x00 :: more →
  handle_client sock = Some {| imei := None; sent := []; closed := IncompleteIMEI |}.
Proof.
  intros Ha. unfold handle_client.
  destruct (receive_all_prefix sock [x; x00] more Ha) as (sock1 & Hr1 & Ha1 & _).
  simpl in Hr1. rewrite Hr1. simpl.
  unfold receive_all. by destruct sock1.
Qed.

(** C1, as the code has it. For every identity length L in 1..255, a
    preamble whose second byte is L followed by L identity bytes is accepted:
    the identity is decoded (never rejected for its bytes), the first message
    sent is the single byte 0x01, and only then does the frame loop run on
    what follows the identity. *)
Theorem handshake_accepts (sock : socket) (x l : byte) (ident more : bytes) :
  ident ≠ [] →
  Z.of_nat (length ident) = b2z l →
  avail sock = x :: l :: ident ++ more →
  ∃ sock' frames why,
    avail sock' = more ∧
    session_loop sock' = Some (frames, why) ∧
    handle_client sock =
      Some {| imei := Some (decode_utf8_ignore ident);
              sent := [x01] :: frames;
              closed := why |}.
Proof.
  intros Hne Hl Ha.
  destruct (receive_all_prefix sock [x; l] (ident ++ more) Ha) as (sock1 & Hr1 & Ha1 & _).
  destruct (receive_all_prefix sock1 ident more Ha1) as (sock2 & Hr2 & Ha2 & _).
  destruct (session_loop_total sock2) as [[frames why] Hloop].
  exists sock2, frames, why. split_and!; [done|done|].
  unfold handle_client. simpl in Hr1. rewrite Hr1. simpl.
  rewrite <- Hl, Nat2Z.id, Hr2, complete_exact by done.
  by rewrite Hloop.
Qed.

(** C4. When the length field decodes to 0, the pass of the loop that read
    it sends nothing, decodes nothing and does not close the session: the
    loop goes on exactly as a loop started on what follows the field. *)
Theorem keepalive_continues (sock : socket) (dlb more : bytes) :
  Struct.unpack Struct.fmt_I dlb = Ret 0 →
  avail sock = dlb ++ more →
  ∃ sock',
    receive_all sock 4 = (Some dlb, sock') ∧
    avail sock' = more ∧
    (∀ fuel, avl_loop (S fuel) sock = avl_loop fuel sock') ∧
    session_loop sock = session_loop sock'.
Proof.
  intros Hu Ha.
  pose proof (unpack_length _ _ _ Hu) as Hl. simpl in Hl.
  destruct (receive_all_prefix sock dlb more Ha) as (sock' & Hr & Ha' & Hb).
  rewrite Hl in Hr, Hb.
  assert (∀ fuel, avl_loop (S fuel) sock = avl_loop fuel sock') as Hstep.
  { intros fuel. simpl. rewrite Hr.
    rewrite complete_exact by (done || by intros ->). by rewrite Hu. }
  exists sock'. split_and!; try done.
  unfold session_loop at 1. rewrite Hstep.
  apply avl_loop_session_loop. lia.
Qed.

(** C2. A payload whose first byte is neither 0x08 nor 0x8E is rejected as a
    whole: [process_avl_data] returns no record list, and the session loop
    that read the frame stops there having sent nothing for it. *)
Theorem unsupported_codec_closes (sock : socket) (dlb more : bytes) (tag : byte) (rest : bytes) :
  b2z tag ≠ 0x08 → b2z tag ≠ 0x8E →
  Struct.unpack Struct.fmt_I dlb = Ret (Z.of_nat (length (tag :: rest))) →
  avail sock = dlb ++ (tag :: rest) ++ more →
  process_avl_data (tag :: rest) = Ret (None, b2z tag) ∧
  session_loop sock = Some ([], FailedToProcess).
Proof.
  intros H8 H8e Hu Ha.
  assert (process_avl_data (tag :: rest) = Ret (None, b2z tag)) as Hp.
  { unfold process_avl_data. rewrite index_cons_0. simpl.
    destruct (Z.eqb_spec (b2z tag) 8); [done|].
    destruct (Z.eqb_spec (b2z tag) 142); done. }
  split; [done|].
  destruct (session_loop_frame sock dlb (tag :: rest) more Hu ltac:(done) Ha)
    as (sock' & _ & ->).
  by rewrite Hp.
Qed.

(** ** The frame decoder *)

Lemma bind_Ret {A B} (a : A) (f : A → result B) : (Ret a ≫= f) = f a.
Proof. done. Qed.

Lemma bind_inv {A B} (m : result A) (f : A → result B) (b : B) :
  m ≫= f = Ret b → ∃ a, m = Ret a ∧ f a = Ret b.
Proof. destruct m as [a|e]; [eauto|done]. Qed.



(** A returned list has one record per pass. *)
Lemma records_loop_length (n : nat) (data : bytes) (codec_id : Z) (offset : nat)
    (records rs : list record) (c : Z) :
  records_loop n data codec_id offset records = Ret (Some rs, c) →
  length rs = (length records + n)%nat ∧ c = codec_id.
Proof.
  revert offset records. induction n as [|n IH]; intros offset records; simpl.
  - intros [= <- <-]. split; [lia|done].
  - intros H. apply bind_inv in H as ([[r|] size] & Hr & H); [|done].
    apply IH in H as [-> ->]. rewrite length_app. simpl. split; [lia|done].
Qed.

Lemma be_uint_2 (hi lo : byte) : Struct.be_uint [hi; lo] = 256 * b2z hi + b2z lo.
Proof. unfold Struct.be_uint. simpl. lia. Qed.



(** A returned record list is as long as the record-count field says. *)
Lemma process_avl_data_count (data : bytes) (records : list record) (codec_id : Z) :
  process_avl_data data = Ret (Some records, codec_id) →
  declared_count data = Some (Z.of_nat (length records))
  ∧ 0 ≤ Z.of_nat (length records) < 65536.
Proof.
  unfold process_avl_data. intros H.
  destruct data as [|tag data]; [done|]. rewrite index_cons_0, bind_Ret in H.
  unfold declared_count.
  destruct (Z.eqb_spec (b2z tag) 8) as [H8|H8].
  - destruct data as [|c rest]; [done|]. simpl in H.
    apply records_loop_length in H as [-> _]. simpl.
    pose proof (b2z_range c). rewrite Z2Nat.id by lia. split; [done|lia].
  - destruct (Z.eqb_spec (b2z tag) 142) as [H8e|H8e]; [|done].
    destruct data as [|c [|lo rest]]; try done.
    unfold slice, Struct.unpack in H. simpl in H. rewrite take_0, be_uint_2 in H.
    apply records_loop_length in H as [-> _]. simpl.
    pose proof (b2z_range c). pose proof (b2z_range lo).
    rewrite Z2Nat.id by lia. split; [done|lia].
Qed.

(** C10. When [process_avl_data] returns a record list, the list is as long
    as the record-count field of the payload says, and the acknowledgement
    the loop then sends is that count as four big-endian bytes. *)
Theorem ack_equals_declared_count (data : bytes) (records : list record) (codec_id : Z) :
  process_avl_data data = Ret (Some records, codec_id) →
  declared_count data = Some (Z.of_nat (length records)) ∧
  ∀ sock dlb more,
    Struct.unpack Struct.fmt_I dlb = Ret (Z.of_nat (length data)) →
    avail sock = dlb ++ data ++ more →
    ∃ sock' response,
      avail sock' = more ∧
      Struct.unpack Struct.fmt_I response = Ret (Z.of_nat (length records)) ∧
      session_loop sock =
        '(sent, why) ← session_loop sock'; Some (response :: sent, why).
Proof.
  intros Hp. destruct (process_avl_data_count _ _ _ Hp) as [Hc Hr].
  split; [done|]. intros sock dlb more Hu Ha.
  assert (data ≠ []) as Hne by (by intros ->).
  destruct (session_loop_frame sock dlb data more Hu Hne Ha) as (sock' & Ha' & ->).
  rewrite Hp. unfold Struct.pack. rewrite bool_decide_true by (simpl; lia).
  exists sock', (Struct.be_bytes 4 (Z.of_nat (length records))).
  split_and!; [done| |done].
  apply (StructFacts.unpack_be_bytes Struct.fmt_I); [done|simpl; lia].
Qed.


(** ** The GPS element *)

(** C8. Any 15 bytes decode, with no check on the values: longitude and
    latitude are the signed 32-bit big-endian integers at offsets 0 and 4
    divided by 10,000,000, altitude the signed 16-bit integer at 8, angle the
    unsigned 16-bit integer at 10, satellites the byte at 12 and speed the
    unsigned 16-bit integer at 13. Decoding the encoding of 525200000 gives
    the binary64 number 52.52. *)
Theorem gps_layout (data : bytes) :
  length data = 15%nat →
  parse_gps_element data =
    Ret {| longitude := truediv (Struct.to_signed 4 (Struct.be_uint (slice data 0 4))) 10000000;
           latitude := truediv (Struct.to_signed 4 (Struct.be_uint (slice data 4 4))) 10000000;
           altitude := Struct.to_signed 2 (Struct.be_uint (slice data 8 2));
           angle := Struct.be_uint (slice data 10 2);
           satellites := default 0 (b2z <$> data !! 12%nat);
           speed := Struct.be_uint (slice data 13 2) |}
  ∧ ∃ g, parse_gps_element gps_52_52 = Ret g ∧ longitude g = float_52_52.
Proof.
  intros Hl. split; [|eexists; split; by vm_compute].
  do 15 (destruct data as [|? data]; [done|]). destruct data; [|done].
  reflexivity.
Qed.

(** ** The IO element *)

Example io_with_16_byte_entry_decoded :
  parse_io_element io_with_16_byte_entry 0x8E = Ret ({[ 6 := 9 ]}, 23%nat).
Proof. by vm_compute. Qed.

Lemma store_app (io : gmap Z Z) (es es' : list (Z * Z)) :
  store io (es ++ es') = store (store io es) es'.
Proof. apply foldl_app. Qed.

Lemma store_lookup_later (io : gmap Z Z) (es : list (Z * Z)) (k : Z) :
  k ∉ es.*1 → store io es !! k = io !! k.
Proof.
  revert io. induction es as [|[k' v'] es IH]; intros io Hk; [done|].
  simpl in *. apply not_elem_of_cons in Hk as [Hne Hk].
  unfold store in *. simpl. rewrite IH by done. by rewrite lookup_insert_ne.
Qed.

(** The last entry written for a key is the one the map holds. *)
Lemma store_last_wins (io : gmap Z Z) (before after : list (Z * Z)) (k v : Z) :
  k ∉ after.*1 → store io (before ++ (k, v) :: after) !! k = Some v.
Proof.
  intros Hk. rewrite store_app. change (store ?m ((k, v) :: after))
    with (store (<[k := v]> m) after).
  rewrite store_lookup_later by done. apply lookup_insert_eq.
Qed.

(** A value written with the width of its bucket is read back. *)
Lemma read_value_encoded (w : width) (pre post : bytes) (v : Z) :
  0 ≤ v < 2 ^ (8 * Z.of_nat (nbytes w)) →
  read_value w (pre ++ Struct.be_bytes (nbytes w) v ++ post) (length pre) = Ret v.
Proof.
  intros Hv.
  assert (∀ f, Struct.signed f = false → Struct.calcsize f = nbytes w →
               Struct.unpack f (slice (pre ++ Struct.be_bytes (nbytes w) v ++ post)
                                      (length pre) (nbytes w)) = Ret v) as Hunpack.
  { intros f Hs Hc.
    rewrite <- (Nat.add_0_r (length pre)), slice_app_r.
    rewrite <- (StructFacts.length_be_bytes (nbytes w) v) at 2.
    rewrite slice_exact, <- Hc. apply StructFacts.unpack_be_bytes; [done|by rewrite Hc]. }
  destruct w; simpl read_value.
  - rewrite <- (Nat.add_0_r (length pre)), index_app_r. simpl.
    unfold index. simpl. f_equal. apply b2z_z2b. simpl in Hv. lia.
  - by apply (Hunpack Struct.fmt_H).
  - by apply (Hunpack Struct.fmt_I).
  - by apply (Hunpack Struct.fmt_Q).
Qed.

(** The loop of a bucket over the encoding of its entries. *)
Lemma bucket_loop_encoded (w : width) (es : list (Z * Z)) (pre post : bytes) (io : gmap Z Z) :
  Forall (fits w) es →
  bucket_loop w (length es) (pre ++ encode_entries w es ++ post) (length pre) io =
  Ret ((length pre + length (encode_entries w es))%nat, store io es).
Proof.
  revert pre io. induction es as [|[k v] es IH]; intros pre io Hfits.
  - simpl. by rewrite Nat.add_0_r.
  - apply Forall_cons in Hfits as [[Hk Hv] Hfits]. simpl in Hk, Hv.
    simpl bucket_loop. simpl encode_entries. unfold encode_entry. simpl fst. simpl snd.
    set (be := Struct.be_bytes (nbytes w) v). set (enc := encode_entries w es).
    set (data := pre ++ z2b k :: (be ++ enc) ++ post).
    assert (data = (pre ++ [z2b k]) ++ be ++ (enc ++ post)) as Hd1
      by (unfold data; by rewrite <- !app_assoc).
    assert (data = (pre ++ z2b k :: be) ++ enc ++ post) as Hd2
      by (unfold data; simpl; by rewrite <- !app_assoc).
    assert (length be = nbytes w) as Hbe by apply StructFacts.length_be_bytes.
    assert (index data (length pre) = Ret k) as ->.
    { unfold data. rewrite <- (Nat.add_0_r (length pre)), index_app_r, index_cons_0.
      by rewrite b2z_z2b. }
    rewrite bind_Ret.
    assert (read_value w data (length pre + 1) = Ret v) as ->.
    { rewrite Hd1. replace (length pre + 1)%nat with (length (pre ++ [z2b k]))
        by (rewrite length_app; simpl; lia).
      by apply read_value_encoded. }
    rewrite bind_Ret, Hd2.
    replace (length pre + 1 + nbytes w)%nat with (length (pre ++ z2b k :: be))
      by (rewrite !length_app; simpl; lia).
    unfold enc at 1. rewrite IH by done. f_equal. f_equal.
    rewrite !length_app. simpl. rewrite length_app. fold enc. lia.
Qed.

(** A whole bucket at [offset]: its count byte, then its loop. *)
Lemma bucket_encoded (w : width) (es : list (Z * Z)) (data pre post : bytes)
    (offset : nat) (io : gmap Z Z) :
  data = pre ++ encode_bucket w es ++ post →
  offset = length pre →
  (length es ≤ 255)%nat →
  Forall (fits w) es →
  index data offset = Ret (Z.of_nat (length es)) ∧
  bucket_loop w (length es) data (offset + 1) io =
  Ret ((offset + length (encode_bucket w es))%nat, store io es).
Proof.
  intros -> -> Hn Hfits. unfold encode_bucket. split.
  - rewrite <- (Nat.add_0_r (length pre)), index_app_r. simpl.
    rewrite index_cons_0. f_equal. apply b2z_z2b. lia.
  - replace (pre ++ (z2b (Z.of_nat (length es)) :: encode_entries w es) ++ post)
      with ((pre ++ [z2b (Z.of_nat (length es))]) ++ encode_entries w es ++ post)
      by (by rewrite <- !app_assoc).
    replace (length pre + 1)%nat with (length (pre ++ [z2b (Z.of_nat (length es))]))
      by (rewrite length_app; simpl; lia).
    rewrite bucket_loop_encoded by done. f_equal. f_equal.
    rewrite length_app. simpl. lia.
Qed.

(** C7. The codec 8 IO element is decoded bucket by bucket, in the order 1,
    2, 4, 8 bytes, each bucket led by its own count byte; every entry is
    written into the same map, so for an id that occurs more than once the
    map holds the value of its last entry in that order. *)
Theorem width_buckets_one_map (event_id element_count : byte)
    (e1 e2 e4 e8 : list (Z * Z)) (post : bytes) :
  (length e1 ≤ 255)%nat → (length e2 ≤ 255)%nat →
  (length e4 ≤ 255)%nat → (length e8 ≤ 255)%nat →
  Forall (fits W1) e1 → Forall (fits W2) e2 →
  Forall (fits W4) e4 → Forall (fits W8) e8 →
  parse_io_element (encode_io8 event_id element_count e1 e2 e4 e8 ++ post) 0x08 =
    Ret (store ∅ (e1 ++ e2 ++ e4 ++ e8),
         length (encode_io8 event_id element_count e1 e2 e4 e8))
  ∧ ∀ before k v after,
      e1 ++ e2 ++ e4 ++ e8 = before ++ (k, v) :: after →
      k ∉ after.*1 →
      store ∅ (e1 ++ e2 ++ e4 ++ e8) !! k = Some v.
Proof.
  intros Hn1 Hn2 Hn4 Hn8 Hf1 Hf2 Hf4 Hf8. split.
  2: { intros before k v after -> Hk. by apply store_last_wins. }
  set (data := encode_io8 event_id element_count e1 e2 e4 e8 ++ post).
  set (b1 := encode_bucket W1 e1). set (b2 := encode_bucket W2 e2).
  set (b4 := encode_bucket W4 e4). set (b8 := encode_bucket W8 e8).
  assert (data = [event_id; element_count] ++ b1 ++ b2 ++ b4 ++ b8 ++ post) as Hdata.
  { unfold data, encode_io8. fold b1 b2 b4 b8.
    change (([event_id; element_count] ++ b1 ++ b2 ++ b4 ++ b8) ++ post =
            [event_id; element_count] ++ b1 ++ b2 ++ b4 ++ b8 ++ post).
    by rewrite <- !app_assoc. }
  destruct (bucket_encoded W1 e1 data [event_id; element_count] (b2 ++ b4 ++ b8 ++ post)
              2 ∅ Hdata eq_refl Hn1 Hf1) as [Hi1 Hl1].
  destruct (bucket_encoded W2 e2 data ([event_id; element_count] ++ b1) (b4 ++ b8 ++ post)
              (2 + length b1) (store ∅ e1)) as [Hi2 Hl2];
    [by rewrite Hdata, <- !app_assoc|done..|].
  destruct (bucket_encoded W4 e4 data ([event_id; element_count] ++ b1 ++ b2) (b8 ++ post)
              (2 + length b1 + length b2) (store (store ∅ e1) e2)) as [Hi4 Hl4];
    [by rewrite Hdata, <- !app_assoc|
     rewrite !length_app; change (length [event_id; element_count]) with 2%nat; lia|done..|].
  destruct (bucket_encoded W8 e8 data ([event_id; element_count] ++ b1 ++ b2 ++ b4) post
              (2 + length b1 + length b2 + length b4)
              (store (store (store ∅ e1) e2) e4)) as [Hi8 Hl8];
    [by rewrite Hdata, <- !app_assoc|
     rewrite !length_app; change (length [event_id; element_count]) with 2%nat; lia|done..|].
  unfold parse_io_element. change (8 =? 8) with true. cbv iota.
  assert (index data 0 = Ret (b2z event_id)) as -> by (by rewrite Hdata).
  assert (index data 1 = Ret (b2z element_count)) as -> by (by rewrite Hdata).
  change (2 + 1)%nat with 3%nat in Hl1. fold b1 in Hl1. fold b2 in Hl2.
  fold b4 in Hl4. fold b8 in Hl8.
  rewrite !bind_Ret, Hi1, bind_Ret, Nat2Z.id, Hl1, bind_Ret.
  rewrite Hi2, bind_Ret, Nat2Z.id, Hl2, bind_Ret.
  rewrite Hi4, bind_Ret, Nat2Z.id, Hl4, bind_Ret.
  rewrite Hi8, bind_Ret, Nat2Z.id, Hl8, bind_Ret.
  f_equal. f_equal.
  - by rewrite !store_app.
  - unfold encode_io8. fold b1 b2 b4 b8.
    change (length (event_id :: element_count :: b1 ++ b2 ++ b4 ++ b8))
      with (S (S (length (b1 ++ b2 ++ b4 ++ b8)))).
    rewrite !length_app. lia.
Qed.

(** * The properties on concrete inputs *)

Lemma handshake_accepts_witness :
  imei_bytes ≠ [] ∧
  Z.of_nat (length imei_bytes) = b2z x0f ∧
  avail idle_device = x00 :: x0f :: imei_bytes ++ [x00; x00; x00; x00] ∧
  ∃ sock' frames why,
    avail sock' = [x00; x00; x00; x00] ∧
    session_loop sock' = Some (frames, why) ∧
    handle_client idle_device =
      Some {| imei := Some (decode_utf8_ignore imei_bytes);
              sent := [x01] :: frames;
              closed := why |}.
Proof.
  split_and!; [done|reflexivity|reflexivity|].
  apply (handshake_accepts idle_device x00 x0f imei_bytes [x00; x00; x00; x00]);
    [done|reflexivity|reflexivity].
Defined.

Example idle_device_session :
  handle_client idle_device =
    Some {| imei := Some [51; 53; 54; 51; 48; 55; 48; 52; 50; 52; 52; 49; 48; 49; 51];
            sent := [[x01]];
            closed := NoDataLength |}.
Proof. by vm_compute. Qed.

(** C1 as stated fails at L = 0: a preamble declaring an empty identity,
    followed by its zero identity bytes, is refused and nothing is sent. *)
Lemma handshake_empty_identity_refused :
  avail [Data [x00; x00]] = [x00; x00] ++ [] ∧
  handle_client [Data [x00; x00]] =
    Some {| imei := None; sent := []; closed := IncompleteIMEI |}.
Proof. split; reflexivity. Qed.

(** The identity is never rejected for its bytes: an ill-formed sequence is
    left out of the decoded string. *)
Example handshake_ill_formed_identity :
  handle_client [Data [x00; x03; x41; xff; x42]] =
    Some {| imei := Some [65; 66]; sent := [[x01]]; closed := NoDataLength |}.
Proof. by vm_compute. Qed.

(** The reader on a script that delivers five bytes in three chunks and then
    times out. *)
Example receive_all_chunks :
  receive_all [Data [x01; x02]; Data [x03]; Data [x04; x05]; Timeout] 4
    = (Some [x01; x02; x03; x04], [Data [x05]; Timeout])
  ∧ (receive_all [Data [x01; x02]; Data [x03]; Data [x04; x05]; Timeout] 6).1 = None
  ∧ (receive_all [Data [x01; x02]; Data [x03]] 4).1 = None.
Proof. by vm_compute. Qed.

Lemma keepalive_continues_witness :
  Struct.unpack Struct.fmt_I [x00; x00; x00; x00] = Ret 0 ∧
  ∃ sock',
    receive_all [Data [x00; x00]; Data [x00; x00; x00; x00; x00; x02; x01; x00]] 4
      = (Some [x00; x00; x00; x00], sock') ∧
    avail sock' = [x00; x00; x00; x02; x01; x00] ∧
    (∀ fuel,
       avl_loop (S fuel) [Data [x00; x00]; Data [x00; x00; x00; x00; x00; x02; x01; x00]]
       = avl_loop fuel sock') ∧
    session_loop [Data [x00; x00]; Data [x00; x00; x00; x00; x00; x02; x01; x00]]
    = session_loop sock'.
Proof.
  split; [reflexivity|].
  apply (keepalive_continues
           [Data [x00; x00]; Data [x00; x00; x00; x00; x00; x02; x01; x00]]
           [x00; x00; x00; x00] [x00; x00; x00; x02; x01; x00]); reflexivity.
Defined.

Lemma unsupported_codec_closes_witness :
  b2z x01 ≠ 0x08 ∧ b2z x01 ≠ 0x8E ∧
  process_avl_data [x01; x00] = Ret (None, b2z x01) ∧
  session_loop [Data [x00; x00; x00; x02; x01; x00]; Data [x00; x00; x00; x00]]
  = Some ([], FailedToProcess).
Proof.
  split_and!; [done|done|..];
    apply (unsupported_codec_closes
             [Data [x00; x00; x00; x02; x01; x00]; Data [x00; x00; x00; x00]]
             [x00; x00; x00; x02] [x00; x00; x00; x00] x01 [x00]);
    done || reflexivity.
Defined.

(** The same id in the 1-byte bucket and in the 2-byte bucket. *)
Lemma width_buckets_one_map_witness :
  Forall (fits W1) [(1, 7)] ∧ Forall (fits W2) [(1, 9)] ∧
  parse_io_element (encode_io8 x00 x02 [(1, 7)] [(1, 9)] [] [] ++ []) 0x08 =
    Ret (store ∅ ([(1, 7)] ++ [(1, 9)] ++ [] ++ []),
         length (encode_io8 x00 x02 [(1, 7)] [(1, 9)] [] []))
  ∧ ∀ before k v after,
      [(1, 7)] ++ [(1, 9)] ++ [] ++ [] = before ++ (k, v) :: after →
      k ∉ after.*1 →
      store ∅ ([(1, 7)] ++ [(1, 9)] ++ [] ++ []) !! k = Some v.
Proof.
  assert (Forall (fits W1) [(1, 7)]) as Hfits1.
  { apply List.Forall_cons; [|apply List.Forall_nil]. split; split; by vm_compute. }
  assert (Forall (fits W2) [(1, 9)]) as Hfits2.
  { apply List.Forall_cons; [|apply List.Forall_nil]. split; split; by vm_compute. }
  split; [exact Hfits1|]. split; [exact Hfits2|].
  apply (width_buckets_one_map x00 x02 [(1, 7)] [(1, 9)] [] [] []);
    simpl; (lia || exact Hfits1 || exact Hfits2 || apply List.Forall_nil).
Defined.

Example width_buckets_spec_example :
  encode_io8 x00 x01 [(1, 7)] [] [] [] = [x00; x01; x01; x01; x07; x00; x00; x00] ∧
  parse_io_element [x00; x01; x01; x01; x07; x00; x00; x00] 0x08 = Ret ({[ 1 := 7 ]}, 8%nat).
Proof. by vm_compute. Qed.

(** The same id in the 1-byte and in the 2-byte bucket: the later one stays. *)
Example width_buckets_duplicate_id :
  parse_io_element (encode_io8 x00 x02 [(1, 7)] [(1, 9)] [] []) 0x08
  = Ret ({[ 1 := 9 ]}, 11%nat).
Proof. by vm_compute. Qed.

Lemma gps_layout_witness :
  length gps_52_52 = 15%nat ∧
  ∃ g, parse_gps_element gps_52_52 = Ret g ∧ longitude g = float_52_52.
Proof.
  split; [reflexivity|].
  apply (gps_layout gps_52_52). reflexivity.
Defined.

(** Values out of the geographic range pass through: longitude 0x7FFFFFFF. *)
Example gps_no_range_check :
  ∃ g, parse_gps_element ([x7f; xff; xff; xff] ++ replicate 11 x00) = Ret g
       ∧ longitude g = truediv 2147483647 10000000
       ∧ PrimFloat.ltb 180 (longitude g) = true.
Proof. eexists. split_and!; by vm_compute. Qed.

Example sample_frame_decoded :
  ∃ r, process_avl_data sample_frame = Ret (Some [r], 0x08)
       ∧ timestamp r = 1560161086000
       ∧ priority r = 1
       ∧ io_element r = {[ 21 := 3; 1 := 1; 66 := 24079; 241 := 24602; 78 := 0 ]}.
Proof. eexists. split_and!; by vm_compute. Qed.

Lemma ack_equals_declared_count_witness :
  ∃ records,
    process_avl_data sample_frame = Ret (Some records, 0x08) ∧
    declared_count sample_frame = Some (Z.of_nat (length records)) ∧
    ∃ sock' response,
      avail sock' = [] ∧
      Struct.unpack Struct.fmt_I response = Ret (Z.of_nat (length records)) ∧
      session_loop [Data [x00; x00; x00; x36]; Data sample_frame] =
        '(sent, why) ← session_loop sock'; Some (response :: sent, why).
Proof.
  eexists. split; [by vm_compute|].
  match goal with
  | |- declared_count _ = Some (Z.of_nat (length ?rs)) ∧ _ =>
      destruct (ack_equals_declared_count sample_frame rs 0x08) as [Hc Hs];
        [by vm_compute|]
  end.
  split; [exact Hc|].
  apply (Hs [Data [x00; x00; x00; x36]; Data sample_frame] [x00; x00; x00; x36] []);
    reflexivity.
Defined.

Example sample_frame_session :
  session_loop [Data [x00; x00; x00; x36]; Data sample_frame]
  = Some ([[x00; x00; x00; x01]], NoDataLength).
Proof. by vm_compute. Qed.

(** A record whose timestamp lies after the year 9999 raises as well. *)
Example timestamp_out_of_range :
  process_avl_data ([x8e; x00; x01; xff] ++ replicate 25 x00) = Raise ValueError.
Proof. by vm_compute. Qed.

(** * Further properties of the session *)

(** X1. When fewer than two bytes arrive before the peer closes or goes
    idle, the session ends as an incomplete preamble and nothing is sent. *)
Theorem short_preamble_closes (sock : socket) :
  (length (avail sock) < 2)%nat →
  handle_client sock =
    Some {| imei := None; sent := []; closed := IncompletePreamble |}.
Proof.
  intros H. unfold handle_client.
  by destruct (receive_all_none sock 2 H) as (sock' & ->).
Qed.

Lemma short_preamble_closes_witness :
  (length (avail [Data [x00]; Timeout; Data [x0f]]) < 2)%nat ∧
  handle_client [Data [x00]; Timeout; Data [x0f]] =
    Some {| imei := None; sent := []; closed := IncompletePreamble |}.
Proof.
  split; [simpl; lia|].
  apply (short_preamble_closes [Data [x00]; Timeout; Data [x0f]]). simpl. lia.
Defined.

(** X2. After a complete preamble, when fewer identity bytes arrive than its
    second byte declares, or when it declares none, the session ends as an
    incomplete identity and nothing is sent: no acknowledgement, no frame
    loop. *)
Theorem short_identity_closes (sock : socket) (x l : byte) (rest : bytes) :
  avail sock = x :: l :: rest →
  (length rest < Z.to_nat (b2z l))%nat ∨ b2z l = 0 →
  handle_client sock =
    Some {| imei := None; sent := []; closed := IncompleteIMEI |}.
Proof.
  intros Ha Hshort. unfold handle_client.
  destruct (receive_all_prefix sock [x; l] rest Ha) as (sock1 & Hr1 & Ha1 & _).
  simpl in Hr1. rewrite Hr1. simpl.
  destruct (decide (length rest < Z.to_nat (b2z l))%nat) as [Hlt|Hge].
  - destruct (receive_all_none sock1 (Z.to_nat (b2z l))) as (sock2 & ->); [|done].
    by rewrite Ha1.
  - destruct Hshort as [?|H0]; [done|]. rewrite H0. simpl.
    unfold receive_all. by destruct sock1.
Qed.

Lemma short_identity_closes_witness :
  avail [Data [x00; x0f]; Data [x33; x35; x36]; Timeout] = x00 :: x0f :: [x33; x35; x36] ∧
  handle_client [Data [x00; x0f]; Data [x33; x35; x36]; Timeout] =
    Some {| imei := None; sent := []; closed := IncompleteIMEI |}.
Proof.
  split; [reflexivity|].
  apply (short_identity_closes _ x00 x0f [x33; x35; x36]); [reflexivity|].
  left. vm_compute. lia.
Defined.

(** X3. Inside the frame loop, when fewer than four bytes arrive for the
    length field the loop ends there and sends nothing. *)
Theorem short_length_field_closes (sock : socket) :
  (length (avail sock) < 4)%nat →
  session_loop sock = Some ([], NoDataLength).
Proof.
  intros H. unfold session_loop. simpl.
  by destruct (receive_all_none sock 4 H) as (sock' & ->).
Qed.

Lemma short_length_field_closes_witness :
  (length (avail [Data [x00; x00; x00]]) < 4)%nat ∧
  session_loop [Data [x00; x00; x00]] = Some ([], NoDataLength).
Proof.
  split; [simpl; lia|].
  apply (short_length_field_closes [Data [x00; x00; x00]]). simpl. lia.
Defined.

(** X4. When a length field announces a payload of n > 0 bytes and fewer
    than n arrive, the loop ends as incomplete data: the partial payload is
    never decoded and nothing is sent for it. *)
Theorem short_payload_closes (sock : socket) (dlb rest : bytes) (n : Z) :
  Struct.unpack Struct.fmt_I dlb = Ret n →
  n ≠ 0 →
  avail sock = dlb ++ rest →
  (length rest < Z.to_nat n)%nat →
  session_loop sock = Some ([], IncompleteAVLData).
Proof.
  intros Hu Hn Ha Hshort.
  pose proof (unpack_length _ _ _ Hu) as Hl. simpl in Hl.
  destruct (receive_all_prefix sock dlb rest Ha) as (sock1 & Hr1 & Ha1 & _).
  rewrite Hl in Hr1. unfold session_loop. simpl. rewrite Hr1.
  rewrite complete_exact by (done || by intros ->). rewrite Hu.
  destruct (Z.eqb_spec n 0) as [?|_]; [done|].
  destruct (receive_all_none sock1 (Z.to_nat n)) as (sock2 & ->); [|done].
  by rewrite Ha1.
Qed.

Lemma short_payload_closes_witness :
  Struct.unpack Struct.fmt_I [x00; x00; x00; x36] = Ret 54 ∧
  avail [Data ([x00; x00; x00; x36] ++ take 40 sample_frame); Timeout]
    = [x00; x00; x00; x36] ++ take 40 sample_frame ∧
  session_loop [Data ([x00; x00; x00; x36] ++ take 40 sample_frame); Timeout]
    = Some ([], IncompleteAVLData).
Proof.
  split; [reflexivity|]. split; [reflexivity|].
  apply (short_payload_closes _ [x00; x00; x00; x36] (take 40 sample_frame) 54);
    [reflexivity|lia|reflexivity|vm_compute; lia].
Defined.

Lemma avl_loop_sends_acks (fuel : nat) (sock : socket) (sent : list bytes) (why : close_reason) :
  avl_loop fuel sock = Some (sent, why) → Forall is_ack sent.
Proof.
  revert sock sent why. induction fuel as [|fuel IH]; intros sock sent why; [done|].
  simpl. loop_cases; try (intros [= <- <-]; apply List.Forall_nil).
  - apply IH.
  - match goal with
    | |- context [avl_loop fuel ?s] => destruct (avl_loop fuel s) as [[acks w]|] eqn:E
    end; [|done].
    intros [= <- <-]. apply List.Forall_cons; [|by eapply IH].
    match goal with
    | Hp : process_avl_data _ = Ret (Some ?rs, _), Hk : Struct.pack _ _ = Ret ?a |- _ =>
        destruct (process_avl_data_count _ _ _ Hp) as [_ Hrange];
        unfold Struct.pack in Hk; rewrite bool_decide_true in Hk by (simpl; lia);
        injection Hk as <-; by exists (Z.of_nat (length rs))
    end.
Qed.

(** X5. Whatever the device sends, the server sends nothing before the
    handshake is through, then the single byte 0x01, and after it only
    four-byte acknowledgements of counts below 65536. *)
Theorem server_sends_ack_and_counts_only (sock : socket) (s : session) :
  handle_client sock = Some s →
  (imei s = None ∧ sent s = []) ∨
  (∃ acks, sent s = [x01] :: acks ∧ Forall is_ack acks).
Proof.
  unfold handle_client.
  repeat match goal with
  | |- context [let '(_, _) := ?r in _] => destruct r as [? ?] eqn:?
  | |- context [match complete ?d ?n with _ => _ end] => destruct (complete d n) eqn:?
  | |- context [match index ?d ?n with _ => _ end] => destruct (index d n) eqn:?
  end; try (intros [= <-]; by left).
  simpl.
  match goal with
  | |- context [session_loop ?s] => destruct (session_loop s) as [[acks why]|] eqn:E
  end; [|done].
  intros [= <-]. right. exists acks. split; [done|].
  by apply avl_loop_sends_acks in E.
Qed.

Lemma server_sends_ack_and_counts_only_witness :
  ∃ s, handle_client
         [Data [x00; x01; x41]; Data [x00; x00; x00; x36]; Data sample_frame] = Some s ∧
       ((imei s = None ∧ sent s = []) ∨
        (∃ acks, sent s = [x01] :: acks ∧ Forall is_ack acks)).
Proof.
  eexists. split; [by vm_compute|].
  apply (server_sends_ack_and_counts_only
           [Data [x00; x01; x41]; Data [x00; x00; x00; x36]; Data sample_frame]).
  by vm_compute.
Defined.

(** Two scripts that deliver the same bytes before their first timeout or
    close are read alike. *)
Lemma receive_all_same_bytes (s1 s2 : socket) (n : nat) :
  avail s1 = avail s2 →
  (receive_all s1 n).1 = (receive_all s2 n).1 ∧
  (is_Some (receive_all s1 n).1 → avail (receive_all s1 n).2 = avail (receive_all s2 n).2).
Proof.
  intros Ha. destruct (decide (n ≤ length (avail s1))%nat) as [Hn|Hn].
  - destruct (receive_all_some s1 n Hn) as (s1' & -> & Ha1 & _).
    rewrite Ha in Hn. destruct (receive_all_some s2 n Hn) as (s2' & -> & Ha2 & _).
    simpl. by rewrite Ha, Ha1, Ha2, Ha.
  - destruct (receive_all_none s1 n ltac:(lia)) as (s1' & ->).
    rewrite Ha in Hn. destruct (receive_all_none s2 n ltac:(lia)) as (s2' & ->).
    simpl. split; [done|]. by intros [? ?].
Qed.

Lemma avl_loop_same_bytes (fuel : nat) (s1 s2 : socket) :
  avail s1 = avail s2 →
  (sock_bytes s1 < fuel)%nat → (sock_bytes s2 < fuel)%nat →
  avl_loop fuel s1 = avl_loop fuel s2.
Proof.
  revert s1 s2. induction fuel as [|fuel IH]; intros s1 s2 Ha H1 H2; [lia|].
  simpl.
  destruct (receive_all_same_bytes s1 s2 4 Ha) as [Hd Hs].
  destruct (receive_all s1 4) as [d1 s1'] eqn:E1.
  destruct (receive_all s2 4) as [d2 s2'] eqn:E2.
  simpl in Hd, Hs. subst d2.
  destruct (complete d1 4) as [dlb|] eqn:Hc; [|done].
  destruct (complete_receive_all _ _ _ _ _ E1 Hc) as (_ & _ & Hb1).
  destruct (complete_receive_all _ _ _ _ _ E2 Hc) as (_ & _ & Hb2).
  apply complete_Some in Hc as (-> & _ & _).
  specialize (Hs ltac:(done)).
  destruct (Struct.unpack Struct.fmt_I dlb) as [n|e]; [|done].
  destruct (Z.eqb_spec n 0) as [_|_]; [apply IH; [done|lia..]|].
  destruct (receive_all_same_bytes s1' s2' (Z.to_nat n) Hs) as [Hd' Hs'].
  destruct (receive_all s1' (Z.to_nat n)) as [p1 s1''] eqn:E1'.
  destruct (receive_all s2' (Z.to_nat n)) as [p2 s2''] eqn:E2'.
  simpl in Hd', Hs'. subst p2.
  destruct (complete p1 (Z.to_nat n)) as [payload|] eqn:Hc'; [|done].
  destruct (complete_receive_all _ _ _ _ _ E1' Hc') as (_ & _ & Hb1').
  destruct (complete_receive_all _ _ _ _ _ E2' Hc') as (_ & _ & Hb2').
  apply complete_Some in Hc' as (-> & _ & _).
  specialize (Hs' ltac:(done)).
  destruct (process_avl_data payload) as [[[records|] c]|e]; try done.
  destruct (Struct.pack Struct.fmt_I (Z.of_nat (length records))); [|done].
  by rewrite (IH s1'' s2'') by (done || lia).
Qed.

(** X6. The session depends only on the bytes that arrive before the first
    timeout or close, not on how they are cut into chunks: two scripts that
    deliver the same bytes give the same identity, the same messages sent and
    the same reason for closing. *)
Theorem session_independent_of_chunking (s1 s2 : socket) :
  avail s1 = avail s2 → handle_client s1 = handle_client s2.
Proof.
  intros Ha. unfold handle_client.
  destruct (receive_all_same_bytes s1 s2 2 Ha) as [Hd Hs].
  destruct (receive_all s1 2) as [d1 s1'] eqn:E1.
  destruct (receive_all s2 2) as [d2 s2'] eqn:E2.
  simpl in Hd, Hs. subst d2.
  destruct (complete d1 2) as [preamble|] eqn:Hc; [|done].
  apply complete_Some in Hc as (-> & _ & _). specialize (Hs ltac:(done)).
  destruct (index preamble 1) as [imei_length|e]; [|done].
  destruct (receive_all_same_bytes s1' s2' (Z.to_nat imei_length) Hs) as [Hd' Hs'].
  destruct (receive_all s1' (Z.to_nat imei_length)) as [i1 s1''] eqn:E1'.
  destruct (receive_all s2' (Z.to_nat imei_length)) as [i2 s2''] eqn:E2'.
  simpl in Hd', Hs'. subst i2.
  destruct (complete i1 (Z.to_nat imei_length)) as [imei_data|] eqn:Hc'; [|done].
  apply complete_Some in Hc' as (-> & _ & _). specialize (Hs' ltac:(done)).
  simpl.
  rewrite <- (avl_loop_session_loop (S (sock_bytes s1'' + sock_bytes s2'')) s1'') by lia.
  rewrite <- (avl_loop_session_loop (S (sock_bytes s1'' + sock_bytes s2'')) s2'') by lia.
  by rewrite (avl_loop_same_bytes _ s1'' s2'') by (done || lia).
Qed.

Lemma session_independent_of_chunking_witness :
  avail [Data [x00; x01; x41; x00]; Data [x00; x00]; Data (x36 :: sample_frame); Timeout]
  = avail [Data [x00]; Data [x01]; Data ([x41; x00; x00; x00; x36] ++ sample_frame)] ∧
  handle_client [Data [x00; x01; x41; x00]; Data [x00; x00]; Data (x36 :: sample_frame); Timeout]
  = handle_client [Data [x00]; Data [x01]; Data ([x41; x00; x00; x00; x36] ++ sample_frame)].
Proof.
  split; [reflexivity|].
  apply (session_independent_of_chunking
           [Data [x00; x01; x41; x00]; Data [x00; x00]; Data (x36 :: sample_frame); Timeout]
           [Data [x00]; Data [x01]; Data ([x41; x00; x00; x00; x36] ++ sample_frame)]).
  reflexivity.
Defined.

(** X7. Reads compose: when [n + m] bytes can be read at once, reading [n]
    and then [m] returns the same bytes, split after the first [n], and
    leaves the same bytes to come. *)
Theorem receive_all_split (sock sock2 : socket) (n m : nat) (data : bytes) :
  receive_all sock (n + m) = (Some data, sock2) →
  ∃ sock1 sock2',
    receive_all sock n = (Some (take n data), sock1) ∧
    receive_all sock1 m = (Some (drop n data), sock2') ∧
    avail sock2' = avail sock2.
Proof.
  intros H. apply receive_all_bytes in H as (Hl & -> & Ha2 & _).
  rewrite length_take in Hl.
  destruct (receive_all_some sock n ltac:(lia)) as (sock1 & Hr1 & Ha1 & _).
  destruct (receive_all_some sock1 m) as (sock2' & Hr2 & Ha2' & _).
  { rewrite Ha1, length_drop. lia. }
  exists sock1, sock2'. split_and!.
  - rewrite Hr1. by rewrite take_take, Nat.min_l by lia.
  - rewrite Hr2, Ha1. by rewrite take_drop_commute, Nat.add_comm.
  - by rewrite Ha2', Ha1, Ha2, drop_drop.
Qed.

Lemma receive_all_split_witness :
  receive_all [Data [x01; x02]; Data [x03]; Data [x04; x05]; Timeout] (1 + 3)
    = (Some [x01; x02; x03; x04], [Data [x05]; Timeout]) ∧
  ∃ sock1 sock2',
    receive_all [Data [x01; x02]; Data [x03]; Data [x04; x05]; Timeout] 1
      = (Some (take 1 [x01; x02; x03; x04]), sock1) ∧
    receive_all sock1 3 = (Some (drop 1 [x01; x02; x03; x04]), sock2') ∧
    avail sock2' = avail [Data [x05]; Timeout].
Proof.
  split; [reflexivity|].
  apply (receive_all_split [Data [x01; x02]; Data [x03]; Data [x04; x05]; Timeout]
           [Data [x05]; Timeout] 1 3 [x01; x02; x03; x04]).
  reflexivity.
Defined.

(** * Further properties of the decoders *)

Lemma be_uint_be_bytes_mod (w : nat) (v : Z) :
  Struct.be_uint (Struct.be_bytes w v) = v mod 2 ^ (8 * Z.of_nat w).
Proof.
  revert v. induction w as [|w IH]; intros v.
  - simpl. unfold Struct.be_uint. simpl. by rewrite Z.mod_1_r.
  - simpl Struct.be_bytes.
    rewrite StructFacts.be_uint_snoc, <- z2b_mod, b2z_z2b by (apply Z.mod_pos_bound; lia).
    rewrite IH.
    replace (8 * Z.of_nat (S w)) with (8 + 8 * Z.of_nat w) by lia.
    rewrite Z.pow_add_r by lia. change (2 ^ 8) with 256.
    rewrite Z.rem_mul_r by lia. lia.
Qed.

(** A signed value written in two's complement is read back. *)
Lemma unpack_signed_be_bytes (f : Struct.fmt) (v : Z) :
  Struct.signed f = true →
  - 2 ^ (8 * Z.of_nat (Struct.calcsize f) - 1) ≤ v < 2 ^ (8 * Z.of_nat (Struct.calcsize f) - 1) →
  Struct.unpack f (Struct.be_bytes (Struct.calcsize f) v) = Ret v.
Proof.
  intros Hs Hv. unfold Struct.unpack.
  rewrite StructFacts.length_be_bytes, decide_True, Hs, be_uint_be_bytes_mod by done.
  f_equal. unfold Struct.to_signed.
  set (k := 8 * Z.of_nat (Struct.calcsize f)) in *.
  assert (1 ≤ k) as Hk by (destruct f; simpl in *; done || lia).
  assert (2 ^ k = 2 * 2 ^ (k - 1)) as Hpow.
  { rewrite <- Z.pow_succ_r by lia. f_equal. lia. }
  destruct (Z.ltb_spec (v mod 2 ^ k) (2 ^ (k - 1))) as [Hlt|Hge].
  - destruct (Z.neg_nonneg_cases v) as [Hneg|Hpos].
    + assert (v mod 2 ^ k = v + 2 ^ k); [|lia].
      symmetry. apply Z.mod_unique with (-1); lia.
    + apply Z.mod_small. lia.
  - destruct (Z.neg_nonneg_cases v) as [Hneg|Hpos].
    + assert (v mod 2 ^ k = v + 2 ^ k); [|lia].
      symmetry. apply Z.mod_unique with (-1); lia.
    + rewrite Z.mod_small in Hge by lia. lia.
Qed.

(** The GPS fields written by [encode_gps] are read back. *)
Lemma gps_round_trip_fields (lon lat alt ang sat spd : Z) :
  - 2 ^ 31 ≤ lon < 2 ^ 31 → - 2 ^ 31 ≤ lat < 2 ^ 31 →
  - 2 ^ 15 ≤ alt < 2 ^ 15 → 0 ≤ ang < 2 ^ 16 →
  0 ≤ sat < 256 → 0 ≤ spd < 2 ^ 16 →
  parse_gps_element (encode_gps lon lat alt ang sat spd) =
    Ret {| longitude := truediv lon 10000000;
           latitude := truediv lat 10000000;
           altitude := alt;
           angle := ang;
           satellites := sat;
           speed := spd |}.
Proof.
  intros Hlon Hlat Halt Hang Hsat Hspd. unfold parse_gps_element.
  change (slice (encode_gps lon lat alt ang sat spd) 0 4)
    with (Struct.be_bytes (Struct.calcsize Struct.fmt_i) lon).
  change (slice (encode_gps lon lat alt ang sat spd) 4 4)
    with (Struct.be_bytes (Struct.calcsize Struct.fmt_i) lat).
  change (slice (encode_gps lon lat alt ang sat spd) 8 2)
    with (Struct.be_bytes (Struct.calcsize Struct.fmt_h) alt).
  change (slice (encode_gps lon lat alt ang sat spd) 10 2)
    with (Struct.be_bytes (Struct.calcsize Struct.fmt_H) ang).
  change (slice (encode_gps lon lat alt ang sat spd) 13 2)
    with (Struct.be_bytes (Struct.calcsize Struct.fmt_H) spd).
  change (index (encode_gps lon lat alt ang sat spd) 12) with (Ret (b2z (z2b sat))).
  rewrite (unpack_signed_be_bytes Struct.fmt_i lon), bind_Ret by done.
  rewrite (unpack_signed_be_bytes Struct.fmt_i lat), bind_Ret by done.
  rewrite (unpack_signed_be_bytes Struct.fmt_h alt), bind_Ret by done.
  rewrite (StructFacts.unpack_be_bytes Struct.fmt_H ang), bind_Ret by done.
  rewrite bind_Ret, (StructFacts.unpack_be_bytes Struct.fmt_H spd), bind_Ret by done.
  by rewrite b2z_z2b.
Qed.

(** X8. The GPS element round trip: for every longitude and latitude that
    fit 32 signed bits (negative ones included), every altitude that fits
    16 signed bits, and angle, satellites and speed in their unsigned ranges,
    decoding the 15-byte big-endian encoding gives the coordinates divided by
    10,000,000 and the other fields unchanged; bytes after the fifteenth are
    not looked at. *)
Theorem gps_round_trip (lon lat alt ang sat spd : Z) (extra : bytes) :
  - 2 ^ 31 ≤ lon < 2 ^ 31 → - 2 ^ 31 ≤ lat < 2 ^ 31 →
  - 2 ^ 15 ≤ alt < 2 ^ 15 → 0 ≤ ang < 2 ^ 16 →
  0 ≤ sat < 256 → 0 ≤ spd < 2 ^ 16 →
  parse_gps_element (encode_gps lon lat alt ang sat spd ++ extra) =
    Ret {| longitude := truediv lon 10000000;
           latitude := truediv lat 10000000;
           altitude := alt;
           angle := ang;
           satellites := sat;
           speed := spd |}.
Proof.
  intros Hlon Hlat Halt Hang Hsat Hspd. unfold parse_gps_element.
  change (slice (encode_gps lon lat alt ang sat spd ++ extra) 0 4)
    with (Struct.be_bytes (Struct.calcsize Struct.fmt_i) lon).
  change (slice (encode_gps lon lat alt ang sat spd ++ extra) 4 4)
    with (Struct.be_bytes (Struct.calcsize Struct.fmt_i) lat).
  change (slice (encode_gps lon lat alt ang sat spd ++ extra) 8 2)
    with (Struct.be_bytes (Struct.calcsize Struct.fmt_h) alt).
  change (slice (encode_gps lon lat alt ang sat spd ++ extra) 10 2)
    with (Struct.be_bytes (Struct.calcsize Struct.fmt_H) ang).
  change (slice (encode_gps lon lat alt ang sat spd ++ extra) 13 2)
    with (Struct.be_bytes (Struct.calcsize Struct.fmt_H) spd).
  change (index (encode_gps lon lat alt ang sat spd ++ extra) 12)
    with (Ret (b2z (z2b sat))).
  rewrite (unpack_signed_be_bytes Struct.fmt_i lon), bind_Ret by done.
  rewrite (unpack_signed_be_bytes Struct.fmt_i lat), bind_Ret by done.
  rewrite (unpack_signed_be_bytes Struct.fmt_h alt), bind_Ret by done.
  rewrite (StructFacts.unpack_be_bytes Struct.fmt_H ang), bind_Ret by done.
  rewrite bind_Ret, (StructFacts.unpack_be_bytes Struct.fmt_H spd), bind_Ret by done.
  by rewrite b2z_z2b.
Qed.

Lemma gps_round_trip_witness :
  parse_gps_element (encode_gps (-1225000000) 253000000 (-12) 270 9 88 ++ [xff; xff]) =
    Ret {| longitude := truediv (-1225000000) 10000000;
           latitude := truediv 253000000 10000000;
           altitude := -12;
           angle := 270;
           satellites := 9;
           speed := 88 |}.
Proof.
  apply (gps_round_trip (-1225000000) 253000000 (-12) 270 9 88 [xff; xff]); lia.
Defined.

(** X9. A GPS element shorter than 15 bytes is never decoded in part: it
    raises, [IndexError] when exactly the satellites byte is the first one
    missing and [struct.error] for every other length. *)
Theorem gps_short_input_raises (data : bytes) :
  (length data < 15)%nat →
  parse_gps_element data =
    Raise (if decide (length data = 12%nat) then IndexError else StructError).
Proof.
  intros Hl.
  do 15 (destruct data as [|? data]; [reflexivity|]).
  simpl in Hl. lia.
Qed.

Lemma gps_short_input_raises_witness :
  parse_gps_element (take 12 gps_52_52) = Raise IndexError ∧
  parse_gps_element (take 14 gps_52_52) = Raise StructError.
Proof.
  split.
  - apply (gps_short_input_raises (take 12 gps_52_52)). vm_compute. lia.
  - apply (gps_short_input_raises (take 14 gps_52_52)). vm_compute. lia.
Defined.

Lemma properties_loop_encoded (ps : list property) (pre post : bytes) (io : gmap Z Z) :
  Forall property_ok ps →
  properties_loop (length ps) (pre ++ encode_properties ps ++ post) (length pre) io =
  Ret ((length pre + length (encode_properties ps))%nat, store io (property_values ps)).
Proof.
  revert pre io. induction ps as [|p ps IH]; intros pre io Hok.
  - simpl. by rewrite Nat.add_0_r.
  - apply Forall_cons in Hok as [Hp Hok].
    simpl length. simpl encode_properties.
    set (enc := encode_properties ps) in *.
    destruct p as [io_id w v|io_id raw]; simpl in Hp.
    + destruct Hp as [Hid Hv]. simpl encode_property.
      set (be := Struct.be_bytes (nbytes w) v).
      set (lb := z2b (Z.of_nat (nbytes w))).
      set (data := pre ++ ((z2b io_id :: lb :: be) ++ enc) ++ post).
      assert (data = (pre ++ [z2b io_id; lb]) ++ be ++ (enc ++ post)) as Hd1
        by (unfold data; simpl; by rewrite <- !app_assoc).
      assert (data = (pre ++ z2b io_id :: lb :: be) ++ enc ++ post) as Hd2
        by (unfold data; simpl; by rewrite <- !app_assoc).
      assert (length be = nbytes w) as Hbe by apply StructFacts.length_be_bytes.
      assert (index data (length pre) = Ret io_id) as Hi0.
      { unfold data. rewrite <- (Nat.add_0_r (length pre)), index_app_r. simpl.
        rewrite index_cons_0. by rewrite b2z_z2b. }
      assert (index data (length pre + 1) = Ret (Z.of_nat (nbytes w))) as Hi1.
      { unfold data. rewrite index_app_r. unfold index. simpl. f_equal.
        unfold lb. apply b2z_z2b. destruct w; simpl; lia. }
      assert (read_value w data (length pre + 2) = Ret v) as Hrv.
      { rewrite Hd1. replace (length pre + 2)%nat with (length (pre ++ [z2b io_id; lb]))
          by (rewrite length_app; simpl; lia).
        by apply read_value_encoded. }
      assert (properties_loop (length ps) data (length pre + 2 + nbytes w)
                (<[io_id := v]> io)
              = Ret ((length pre + length ((z2b io_id :: lb :: be) ++ enc))%nat,
                     store io ((io_id, v) :: property_values ps))) as Hrec.
      { rewrite Hd2.
        replace (length pre + 2 + nbytes w)%nat with (length (pre ++ z2b io_id :: lb :: be))
          by (rewrite !length_app; simpl; lia).
        unfold enc. rewrite IH by done. f_equal. f_equal.
        rewrite !length_app. simpl. rewrite ?length_app. unfold enc. lia. }
      simpl properties_loop. rewrite Hi0, bind_Ret, Hi1, bind_Ret.
      destruct w; simpl in Hrv, Hrec |- *; rewrite Hrv, bind_Ret; exact Hrec.
    + destruct Hp as (Hid & Hlen & H1 & H2 & H4 & H8). simpl encode_property.
      set (lb := z2b (Z.of_nat (length raw))).
      set (data := pre ++ ((z2b io_id :: lb :: raw) ++ enc) ++ post).
      assert (data = (pre ++ z2b io_id :: lb :: raw) ++ enc ++ post) as Hd2
        by (unfold data; simpl; by rewrite <- !app_assoc).
      assert (index data (length pre) = Ret io_id) as Hi0.
      { unfold data. rewrite <- (Nat.add_0_r (length pre)), index_app_r. simpl.
        rewrite index_cons_0. by rewrite b2z_z2b. }
      assert (index data (length pre + 1) = Ret (Z.of_nat (length raw))) as Hi1.
      { unfold data. rewrite index_app_r. unfold index. simpl. f_equal.
        unfold lb. apply b2z_z2b. lia. }
      simpl properties_loop. rewrite Hi0, bind_Ret, Hi1, bind_Ret.
      destruct (Z.eqb_spec (Z.of_nat (length raw)) 1); [lia|].
      destruct (Z.eqb_spec (Z.of_nat (length raw)) 2); [lia|].
      destruct (Z.eqb_spec (Z.of_nat (length raw)) 4); [lia|].
      destruct (Z.eqb_spec (Z.of_nat (length raw)) 8); [lia|].
      rewrite Nat2Z.id, Hd2.
      replace (length pre + 2 + length raw)%nat with (length (pre ++ z2b io_id :: lb :: raw))
        by (rewrite !length_app; simpl; lia).
      unfold enc. rewrite IH by done. f_equal. f_equal.
      rewrite !length_app. simpl. rewrite ?length_app. unfold enc. lia.
Qed.

(** X10. The codec 8 extended IO element round trip: decoding the encoding
    of up to 255 entries, each either a value of 1, 2, 4 or 8 bytes or an
    opaque run of any other length, consumes exactly the encoding and yields
    the map of the value entries written in order; the opaque entries leave no
    trace and whatever follows the element is not touched. *)
Theorem extended_io_round_trip (event_id : byte) (ps : list property) (post : bytes) :
  (length ps ≤ 255)%nat →
  Forall property_ok ps →
  parse_io_element (encode_io8e event_id ps ++ post) 0x8E =
    Ret (store ∅ (property_values ps), length (encode_io8e event_id ps)).
Proof.
  intros Hn Hok. unfold parse_io_element, encode_io8e.
  change (142 =? 8) with false. change (142 =? 142) with true. cbv iota.
  change ((event_id :: z2b (Z.of_nat (length ps)) :: encode_properties ps) ++ post)
    with ([event_id; z2b (Z.of_nat (length ps))] ++ encode_properties ps ++ post).
  set (pre := [event_id; z2b (Z.of_nat (length ps))]).
  assert (index (pre ++ encode_properties ps ++ post) 0 = Ret (b2z event_id)) as -> by done.
  assert (index (pre ++ encode_properties ps ++ post) 1 = Ret (Z.of_nat (length ps))) as ->.
  { unfold index, pre. simpl. f_equal. apply b2z_z2b. lia. }
  rewrite !bind_Ret, Nat2Z.id.
  change 2%nat with (length pre) at 1.
  by rewrite properties_loop_encoded.
Qed.

Lemma extended_io_round_trip_witness :
  Forall property_ok [Opaque 5 (replicate 16 xff); Value 6 W1 9; Value 7 W4 70000] ∧
  parse_io_element
    (encode_io8e x00 [Opaque 5 (replicate 16 xff); Value 6 W1 9; Value 7 W4 70000] ++ [xaa]) 0x8E
  = Ret (store ∅ [(6, 9); (7, 70000)], 29%nat).
Proof.
  assert (Forall property_ok [Opaque 5 (replicate 16 xff); Value 6 W1 9; Value 7 W4 70000])
    as Hok.
  { repeat apply List.Forall_cons; try apply List.Forall_nil;
      unfold property_ok; simpl; lia. }
  split; [exact Hok|].
  apply (extended_io_round_trip x00
           [Opaque 5 (replicate 16 xff); Value 6 W1 9; Value 7 W4 70000] [xaa]);
    [simpl; lia|exact Hok].
Defined.

(** What a successful read says about the buffer and about the value. *)
Lemma index_within (data : bytes) (i : nat) (v : Z) :
  index data i = Ret v → (i < length data)%nat ∧ 0 ≤ v < 256.
Proof.
  unfold index. destruct (data !! i) as [b|] eqn:E; [|done].
  intros [= <-]. split; [by eapply lookup_lt_Some|apply b2z_range].
Qed.

Lemma unpack_slice_within (f : Struct.fmt) (data : bytes) (o : nat) (v : Z) :
  Struct.signed f = false →
  Struct.unpack f (slice data o (Struct.calcsize f)) = Ret v →
  (o + Struct.calcsize f ≤ length data)%nat ∧ 0 ≤ v < 2 ^ (8 * Z.of_nat (Struct.calcsize f)).
Proof.
  intros Hs H. pose proof (unpack_length _ _ _ H) as Hl.
  unfold Struct.unpack in H. rewrite decide_True, Hs in H by done. injection H as <-.
  split; [|pose proof (StructFacts.be_uint_range (slice data o (Struct.calcsize f))) as Hr;
             by rewrite Hl in Hr].
  unfold slice in Hl. rewrite length_take, length_drop in Hl.
  assert (0 < Struct.calcsize f)%nat by (destruct f; simpl; lia). lia.
Qed.

Lemma read_value_within (w : width) (data : bytes) (o : nat) (v : Z) :
  read_value w data o = Ret v →
  (o + nbytes w ≤ length data)%nat ∧ 0 ≤ v < 2 ^ (8 * Z.of_nat (nbytes w)).
Proof.
  destruct w; simpl read_value; intros H.
  - apply index_within in H as [? ?]. simpl. split; lia.
  - by apply (unpack_slice_within Struct.fmt_H) in H.
  - by apply (unpack_slice_within Struct.fmt_I) in H.
  - by apply (unpack_slice_within Struct.fmt_Q) in H.
Qed.

Lemma bucket_loop_within (w : width) (n : nat) (data : bytes) (offset : nat)
    (io : gmap Z Z) (offset' : nat) (io' : gmap Z Z) :
  bucket_loop w n data offset io = Ret (offset', io') →
  (offset ≤ length data)%nat →
  offset' = (offset + n * (1 + nbytes w))%nat ∧ (offset' ≤ length data)%nat ∧
  (map_Forall io_entry_ok io → map_Forall io_entry_ok io').
Proof.
  revert offset io. induction n as [|n IH]; intros offset io H Hle.
  - injection H as <- <-. split_and!; [lia|done|done].
  - simpl in H. apply bind_inv in H as (io_id & Hid & H).
    apply bind_inv in H as (io_value & Hv & H).
    apply index_within in Hid as [_ Hid]. apply read_value_within in Hv as [Hlen Hv].
    apply IH in H as (-> & Hle' & Hmap); [|lia].
    split_and!; [lia|done|].
    intros Hio. apply Hmap, map_Forall_insert_2; [|done].
    split; [done|]. split; [lia|]. eapply Z.lt_le_trans; [apply Hv|].
    apply Z.pow_le_mono_r; [lia|]. destruct w; simpl; lia.
Qed.

(** X11. A codec 8 IO element that decodes has consumed its two header
    bytes, its four count bytes and, per counted entry, 2, 3, 5 or 9 bytes by
    bucket, where the four counts are the bytes found at offset 2 and right
    after each bucket; all of these bytes lie inside the buffer it was
    given. *)
Theorem codec8_io_size (data : bytes) (io : gmap Z Z) (size : nat) :
  parse_io_element data 0x08 = Ret (io, size) →
  ∃ n1 n2 n4 n8 : nat,
    index data 2 = Ret (Z.of_nat n1) ∧
    index data (3 + 2 * n1) = Ret (Z.of_nat n2) ∧
    index data (4 + 2 * n1 + 3 * n2) = Ret (Z.of_nat n4) ∧
    index data (5 + 2 * n1 + 3 * n2 + 5 * n4) = Ret (Z.of_nat n8) ∧
    size = (6 + 2 * n1 + 3 * n2 + 5 * n4 + 9 * n8)%nat ∧
    (size ≤ length data)%nat.
Proof.
  unfold parse_io_element. change (8 =? 8) with true. cbv iota. intros H.
  apply bind_inv in H as (event_id & _ & H).
  apply bind_inv in H as (element_count & _ & H).
  apply bind_inv in H as (n1 & Hi1 & H).
  destruct (index_within _ _ _ Hi1) as [Hl1 Hn1].
  apply bind_inv in H as ([o1 io1] & Hb1 & H).
  apply bucket_loop_within in Hb1 as (-> & Ho1 & _); [|lia].
  apply bind_inv in H as (n2 & Hi2 & H).
  destruct (index_within _ _ _ Hi2) as [Hl2 Hn2].
  apply bind_inv in H as ([o2 io2] & Hb2 & H).
  apply bucket_loop_within in Hb2 as (-> & Ho2 & _); [|lia].
  apply bind_inv in H as (n4 & Hi4 & H).
  destruct (index_within _ _ _ Hi4) as [Hl4 Hn4].
  apply bind_inv in H as ([o4 io4] & Hb4 & H).
  apply bucket_loop_within in Hb4 as (-> & Ho4 & _); [|lia].
  apply bind_inv in H as (n8 & Hi8 & H).
  destruct (index_within _ _ _ Hi8) as [Hl8 Hn8].
  apply bind_inv in H as ([o8 io8] & Hb8 & H).
  apply bucket_loop_within in Hb8 as (-> & Ho8 & _); [|lia].
  injection H as <- <-.
  exists (Z.to_nat n1), (Z.to_nat n2), (Z.to_nat n4), (Z.to_nat n8).
  simpl nbytes in *. rewrite !Z2Nat.id by lia.
  split_and!; [done| | | |lia|lia].
  - rewrite <- Hi2. f_equal. lia.
  - rewrite <- Hi4. f_equal. lia.
  - rewrite <- Hi8. f_equal. lia.
Qed.

(** The IO element of the sample packet: counts 2, 1, 1, 1 and 27 bytes. *)
Lemma codec8_io_size_witness :
  ∃ n1 n2 n4 n8 : nat,
    index (drop 26 sample_frame) 2 = Ret (Z.of_nat n1) ∧
    index (drop 26 sample_frame) (3 + 2 * n1) = Ret (Z.of_nat n2) ∧
    index (drop 26 sample_frame) (4 + 2 * n1 + 3 * n2) = Ret (Z.of_nat n4) ∧
    index (drop 26 sample_frame) (5 + 2 * n1 + 3 * n2 + 5 * n4) = Ret (Z.of_nat n8) ∧
    27%nat = (6 + 2 * n1 + 3 * n2 + 5 * n4 + 9 * n8)%nat ∧
    (27 ≤ length (drop 26 sample_frame))%nat.
Proof.
  apply (codec8_io_size (drop 26 sample_frame)
           {[ 21 := 3; 1 := 1; 66 := 24079; 241 := 24602; 78 := 0 ]} 27).
  by vm_compute.
Defined.

(** X12. In the codec 8 extended IO element a skipped entry is not checked
    against the buffer: an element whose single entry declares a length other
    than 1, 2, 4 or 8 decodes to the empty map with a consumed size of 4 plus
    that length, although none of the declared value bytes is there. *)
Theorem extended_skip_not_bounds_checked (event_id io_id len : byte) :
  b2z len ≠ 1 → b2z len ≠ 2 → b2z len ≠ 4 → b2z len ≠ 8 →
  parse_io_element [event_id; x01; io_id; len] 0x8E = Ret (∅, (4 + Z.to_nat (b2z len))%nat).
Proof.
  intros H1 H2 H4 H8. unfold parse_io_element.
  change (142 =? 8) with false. change (142 =? 142) with true. cbv iota.
  change (index [event_id; x01; io_id; len] 0) with (Ret (b2z event_id)).
  change (index [event_id; x01; io_id; len] 1) with (Ret 1).
  rewrite !bind_Ret. change (Z.to_nat 1) with 1%nat. simpl properties_loop.
  destruct (Z.eqb_spec (b2z len) 1); [done|].
  destruct (Z.eqb_spec (b2z len) 2); [done|].
  destruct (Z.eqb_spec (b2z len) 4); [done|].
  destruct (Z.eqb_spec (b2z len) 8); done.
Qed.

Lemma extended_skip_not_bounds_checked_witness :
  parse_io_element [x00; x01; x05; xc8] 0x8E = Ret (∅, (4 + Z.to_nat (b2z xc8))%nat).
Proof. apply (extended_skip_not_bounds_checked x00 x05 xc8); by vm_compute. Defined.

Lemma properties_loop_entries (n : nat) (data : bytes) (offset : nat)
    (io : gmap Z Z) (offset' : nat) (io' : gmap Z Z) :
  properties_loop n data offset io = Ret (offset', io') →
  map_Forall io_entry_ok io → map_Forall io_entry_ok io'.
Proof.
  revert offset io. induction n as [|n IH]; intros offset io H Hio.
  - by injection H as <- <-.
  - simpl in H. apply bind_inv in H as (io_id & Hid & H).
    apply bind_inv in H as (len & Hlen & H).
    apply index_within in Hid as [_ Hid].
    assert (∀ v, 0 ≤ v < 2 ^ 64 → map_Forall io_entry_ok (<[io_id := v]> io)) as Hins.
    { intros v Hv. by apply map_Forall_insert_2. }
    destruct (len =? 1).
    { apply bind_inv in H as (v & Hv & H). apply index_within in Hv as [_ Hv].
      apply IH in H; [done|]. apply Hins. lia. }
    destruct (len =? 2).
    { apply bind_inv in H as (v & Hv & H).
      apply (unpack_slice_within Struct.fmt_H) in Hv as [_ Hv]; [|done].
      apply IH in H; [done|]. apply Hins. simpl in Hv. lia. }
    destruct (len =? 4).
    { apply bind_inv in H as (v & Hv & H).
      apply (unpack_slice_within Struct.fmt_I) in Hv as [_ Hv]; [|done].
      apply IH in H; [done|]. apply Hins. simpl in Hv. lia. }
    destruct (len =? 8).
    { apply bind_inv in H as (v & Hv & H).
      apply (unpack_slice_within Struct.fmt_Q) in Hv as [_ Hv]; [|done].
      apply IH in H; [done|]. apply Hins. simpl in Hv. lia. }
    by apply IH in H.
Qed.

(** X13. Whatever the codec and the data, an IO map that is returned has
    ids in 0..255 only and values in 0..2^64-1 only. *)
Theorem io_map_entries_in_range (data : bytes) (codec_id : Z) (io : gmap Z Z) (size : nat) :
  parse_io_element data codec_id = Ret (io, size) →
  map_Forall io_entry_ok io.
Proof.
  unfold parse_io_element. intros H.
  destruct (codec_id =? 8).
  - apply bind_inv in H as (event_id & _ & H).
    apply bind_inv in H as (element_count & _ & H).
    apply bind_inv in H as (n1 & Hn1 & H). apply index_within in Hn1 as [Hl1 _].
    apply bind_inv in H as ([o1 io1] & Hb1 & H).
    apply bucket_loop_within in Hb1 as (_ & Ho1 & Hio1); [|lia].
    apply bind_inv in H as (n2 & Hn2 & H). apply index_within in Hn2 as [Hl2 _].
    apply bind_inv in H as ([o2 io2] & Hb2 & H).
    apply bucket_loop_within in Hb2 as (_ & Ho2 & Hio2); [|lia].
    apply bind_inv in H as (n4 & Hn4 & H). apply index_within in Hn4 as [Hl4 _].
    apply bind_inv in H as ([o4 io4] & Hb4 & H).
    apply bucket_loop_within in Hb4 as (_ & Ho4 & Hio4); [|lia].
    apply bind_inv in H as (n8 & Hn8 & H). apply index_within in Hn8 as [Hl8 _].
    apply bind_inv in H as ([o8 io8] & Hb8 & H).
    apply bucket_loop_within in Hb8 as (_ & Ho8 & Hio8); [|lia].
    injection H as <- <-. apply Hio8, Hio4, Hio2, Hio1, map_Forall_empty.
  - destruct (codec_id =? 142).
    + apply bind_inv in H as (event_id & _ & H).
      apply bind_inv in H as (properties_count & _ & H).
      apply bind_inv in H as ([o io'] & Hp & H). injection H as <- <-.
      eapply properties_loop_entries; [exact Hp|apply map_Forall_empty].
    + injection H as <- <-. apply map_Forall_empty.
Qed.

Lemma io_map_entries_in_range_witness :
  map_Forall io_entry_ok
    ({[ 21 := 3; 1 := 1; 66 := 24079; 241 := 24602; 78 := 0 ]} : gmap Z Z).
Proof.
  apply (io_map_entries_in_range (drop 26 sample_frame) 0x08 _ 27). by vm_compute.
Defined.

(** ** Bytes after the last record *)

Lemma index_app_l (data extra : bytes) (i : nat) (v : Z) :
  index data i = Ret v → index (data ++ extra) i = Ret v.
Proof.
  unfold index. destruct (data !! i) as [b|] eqn:E; [|done].
  by rewrite (lookup_app_l_Some _ _ _ _ E).
Qed.

Lemma slice_app_l (data extra : bytes) (o k : nat) :
  length (slice data o k) = k → slice (data ++ extra) o k = slice data o k.
Proof.
  unfold slice. rewrite length_take, length_drop. intros Hl.
  destruct k as [|k]; [by rewrite !take_0|].
  rewrite drop_app_le by lia. apply take_app_le. rewrite length_drop. lia.
Qed.

Lemma unpack_slice_app_l (f : Struct.fmt) (data extra : bytes) (o : nat) (v : Z) :
  Struct.unpack f (slice data o (Struct.calcsize f)) = Ret v →
  Struct.unpack f (slice (data ++ extra) o (Struct.calcsize f)) = Ret v.
Proof.
  intros H. rewrite slice_app_l; [done|]. by eapply unpack_length.
Qed.

Lemma read_value_app_l (w : width) (data extra : bytes) (o : nat) (v : Z) :
  read_value w data o = Ret v → read_value w (data ++ extra) o = Ret v.
Proof.
  destruct w; simpl; [apply index_app_l|..].
  - apply (unpack_slice_app_l Struct.fmt_H).
  - apply (unpack_slice_app_l Struct.fmt_I).
  - apply (unpack_slice_app_l Struct.fmt_Q).
Qed.

Lemma bucket_loop_app_l (w : width) (n : nat) (data extra : bytes) (offset : nat)
    (io : gmap Z Z) (r : nat * gmap Z Z) :
  bucket_loop w n data offset io = Ret r →
  bucket_loop w n (data ++ extra) offset io = Ret r.
Proof.
  revert offset io. induction n as [|n IH]; intros offset io H; [done|].
  simpl in *. apply bind_inv in H as (io_id & Hid & H).
  apply bind_inv in H as (io_value & Hv & H).
  rewrite (index_app_l _ _ _ _ Hid), bind_Ret.
  rewrite (read_value_app_l _ _ _ _ _ Hv), bind_Ret. by apply IH.
Qed.

Lemma properties_loop_app_l (n : nat) (data extra : bytes) (offset : nat)
    (io : gmap Z Z) (r : nat * gmap Z Z) :
  properties_loop n data offset io = Ret r →
  properties_loop n (data ++ extra) offset io = Ret r.
Proof.
  revert offset io. induction n as [|n IH]; intros offset io H; [done|].
  simpl in *. apply bind_inv in H as (io_id & Hid & H).
  apply bind_inv in H as (len & Hlen & H).
  rewrite (index_app_l _ _ _ _ Hid), bind_Ret.
  rewrite (index_app_l _ _ _ _ Hlen), bind_Ret.
  destruct (len =? 1).
  { apply bind_inv in H as (v & Hv & H).
    rewrite (index_app_l _ _ _ _ Hv), bind_Ret. by apply IH. }
  destruct (len =? 2).
  { apply bind_inv in H as (v & Hv & H).
    rewrite (unpack_slice_app_l Struct.fmt_H _ _ _ _ Hv), bind_Ret. by apply IH. }
  destruct (len =? 4).
  { apply bind_inv in H as (v & Hv & H).
    rewrite (unpack_slice_app_l Struct.fmt_I _ _ _ _ Hv), bind_Ret. by apply IH. }
  destruct (len =? 8).
  { apply bind_inv in H as (v & Hv & H).
    rewrite (unpack_slice_app_l Struct.fmt_Q _ _ _ _ Hv), bind_Ret. by apply IH. }
  by apply IH.
Qed.

Lemma parse_io_element_app_l (data extra : bytes) (codec_id : Z) (r : gmap Z Z * nat) :
  parse_io_element data codec_id = Ret r →
  parse_io_element (data ++ extra) codec_id = Ret r.
Proof.
  unfold parse_io_element. intros H. destruct (codec_id =? 8).
  - apply bind_inv in H as (event_id & H0 & H).
    apply bind_inv in H as (element_count & H1 & H).
    rewrite (index_app_l _ _ _ _ H0), bind_Ret, (index_app_l _ _ _ _ H1), bind_Ret.
    do 4 (apply bind_inv in H as (? & Hn & H); apply bind_inv in H as ([? ?] & Hb & H);
          rewrite (index_app_l _ _ _ _ Hn), bind_Ret;
          rewrite (bucket_loop_app_l _ _ _ _ _ _ _ Hb), bind_Ret; clear Hn Hb).
    done.
  - destruct (codec_id =? 142); [|done].
    apply bind_inv in H as (event_id & H0 & H).
    apply bind_inv in H as (properties_count & H1 & H).
    apply bind_inv in H as ([? ?] & Hp & H).
    rewrite (index_app_l _ _ _ _ H0), bind_Ret, (index_app_l _ _ _ _ H1), bind_Ret.
    by rewrite (properties_loop_app_l _ _ _ _ _ _ Hp), bind_Ret.
Qed.

Lemma parse_gps_element_length (data : bytes) (g : gps) :
  parse_gps_element data = Ret g → (15 ≤ length data)%nat.
Proof.
  unfold parse_gps_element. intros H.
  do 5 (apply bind_inv in H as (? & _ & H)).
  apply bind_inv in H as (? & Hs & _).
  apply (unpack_slice_within Struct.fmt_H) in Hs as [Hs _]; [|done].
  simpl in Hs. lia.
Qed.

Lemma parse_record_min_length (data : bytes) (codec_id : Z) (r : option record * nat) :
  parse_record data codec_id = Ret r → (24 ≤ length data)%nat.
Proof.
  unfold parse_record. intros H.
  do 3 (apply bind_inv in H as (? & _ & H)).
  apply bind_inv in H as (g & Hg & _).
  apply parse_gps_element_length in Hg.
  unfold slice in Hg. rewrite length_take, length_drop in Hg. lia.
Qed.

Lemma parse_record_app_l (data extra : bytes) (codec_id : Z) (r : option record * nat) :
  parse_record data codec_id = Ret r →
  parse_record (data ++ extra) codec_id = Ret r.
Proof.
  intros H. pose proof (parse_record_min_length _ _ _ H) as Hlen.
  unfold parse_record in *.
  apply bind_inv in H as (ts & Hts & H).
  apply bind_inv in H as (ts' & Hts' & H).
  apply bind_inv in H as (pr & Hpr & H).
  apply bind_inv in H as (g & Hg & H).
  apply bind_inv in H as ([io io_size] & Hio & H).
  rewrite (unpack_slice_app_l Struct.fmt_Q _ _ _ _ Hts), bind_Ret, Hts', bind_Ret.
  rewrite (index_app_l _ _ _ _ Hpr), bind_Ret.
  rewrite slice_app_l.
  2: { apply parse_gps_element_length in Hg. unfold slice in *.
       rewrite length_take in *. lia. }
  rewrite Hg, bind_Ret, drop_app_le by lia.
  by rewrite (parse_io_element_app_l _ _ _ _ Hio), bind_Ret.
Qed.

Lemma records_loop_app_l (n : nat) (data extra : bytes) (codec_id : Z) (offset : nat)
    (records : list record) (r : option (list record) * Z) :
  records_loop n data codec_id offset records = Ret r →
  records_loop n (data ++ extra) codec_id offset records = Ret r.
Proof.
  revert offset records. induction n as [|n IH]; intros offset records H; [done|].
  simpl in *. apply bind_inv in H as ([record size] & Hr & H).
  pose proof (parse_record_min_length _ _ _ Hr) as Hlen. rewrite length_drop in Hlen.
  rewrite drop_app_le by lia.
  rewrite (parse_record_app_l _ _ _ _ Hr), bind_Ret.
  destruct record; [by apply IH|done].
Qed.

(** X14. [process_avl_data] never looks past the last record it decodes:
    when it returns for a payload, it returns the same for that payload
    followed by any further bytes, so the repeated count and the checksum that
    close a packet are ignored whatever they hold. *)
Theorem trailing_bytes_ignored (data extra : bytes) (r : option (list record) * Z) :
  process_avl_data data = Ret r →
  process_avl_data (data ++ extra) = Ret r.
Proof.
  unfold process_avl_data. intros H.
  apply bind_inv in H as (codec_id & Hc & H).
  rewrite (index_app_l _ _ _ _ Hc), bind_Ret.
  destruct (codec_id =? 8).
  - apply bind_inv in H as (record_count & Hn & H).
    rewrite (index_app_l _ _ _ _ Hn), bind_Ret. by apply records_loop_app_l.
  - destruct (codec_id =? 142); [|done].
    apply bind_inv in H as (record_count & Hn & H).
    rewrite (unpack_slice_app_l Struct.fmt_H _ _ _ _ Hn), bind_Ret.
    by apply records_loop_app_l.
Qed.

Lemma trailing_bytes_ignored_witness :
  ∃ r, process_avl_data (take 53 sample_frame) = Ret r ∧
       process_avl_data (take 53 sample_frame ++ [x01; x00; x00; xc7; xcf]) = Ret r.
Proof.
  eexists. split; [by vm_compute|].
  apply (trailing_bytes_ignored (take 53 sample_frame) [x01; x00; x00; xc7; xcf]).
  by vm_compute.
Defined.

(** ** How many bytes a record needs *)

Lemma properties_loop_advances (n : nat) (data : bytes) (offset : nat)
    (io : gmap Z Z) (offset' : nat) (io' : gmap Z Z) :
  properties_loop n data offset io = Ret (offset', io') → (offset ≤ offset')%nat.
Proof.
  revert offset io. induction n as [|n IH]; intros offset io H.
  - injection H as <- _. lia.
  - simpl in H. apply bind_inv in H as (io_id & _ & H).
    apply bind_inv in H as (len & _ & H).
    repeat match type of H with
    | (if ?c then _ else _) = _ =>
        destruct c; [apply bind_inv in H as (? & _ & H); apply IH in H; lia|]
    end.
    apply IH in H. lia.
Qed.

(** A record that decodes is at least [m] bytes long and consumes at least
    [m] bytes: 30 for codec 8, 26 for codec 8 extended. *)
Lemma parse_record_min_size (data : bytes) (codec_id : Z) (r : option record) (size : nat) :
  parse_record data codec_id = Ret (r, size) →
  (codec_id = 0x08 → (30 ≤ size ≤ length data)%nat) ∧
  (codec_id = 0x8E → (26 ≤ size ∧ 26 ≤ length data)%nat).
Proof.
  intros H. pose proof (parse_record_min_length _ _ _ H) as Hlen.
  unfold parse_record in H.
  do 4 (apply bind_inv in H as (? & _ & H)).
  apply bind_inv in H as ([io io_size] & Hio & H). injection H as _ <-.
  unfold parse_io_element in Hio. split; intros ->.
  - change (8 =? 8) with true in Hio. cbv iota in Hio.
    apply bind_inv in Hio as (event_id & _ & Hio).
    apply bind_inv in Hio as (element_count & _ & Hio).
    apply bind_inv in Hio as (n1 & Hn1 & Hio). apply index_within in Hn1 as [Hl1 _].
    apply bind_inv in Hio as ([o1 io1] & Hb1 & Hio).
    apply bucket_loop_within in Hb1 as (-> & Ho1 & _); [|lia].
    apply bind_inv in Hio as (n2 & Hn2 & Hio). apply index_within in Hn2 as [Hl2 _].
    apply bind_inv in Hio as ([o2 io2] & Hb2 & Hio).
    apply bucket_loop_within in Hb2 as (-> & Ho2 & _); [|lia].
    apply bind_inv in Hio as (n4 & Hn4 & Hio). apply index_within in Hn4 as [Hl4 _].
    apply bind_inv in Hio as ([o4 io4] & Hb4 & Hio).
    apply bucket_loop_within in Hb4 as (-> & Ho4 & _); [|lia].
    apply bind_inv in Hio as (n8 & Hn8 & Hio). apply index_within in Hn8 as [Hl8 _].
    apply bind_inv in Hio as ([o8 io8] & Hb8 & Hio).
    apply bucket_loop_within in Hb8 as (-> & Ho8 & _); [|lia].
    injection Hio as _ <-. rewrite length_drop in *. simpl nbytes in *. lia.
  - change (142 =? 8) with false in Hio. change (142 =? 142) with true in Hio.
    cbv iota in Hio.
    apply bind_inv in Hio as (event_id & _ & Hio).
    apply bind_inv in Hio as (properties_count & Hn & Hio).
    apply index_within in Hn as [Hn _]. rewrite length_drop in Hn.
    apply bind_inv in Hio as ([o io'] & Hp & Hio). injection Hio as _ <-.
    apply properties_loop_advances in Hp. lia.
Qed.

Lemma records_loop_min_length (m : nat) (n : nat) (data : bytes) (codec_id : Z)
    (offset : nat) (records rs : list record) (c : Z) :
  (0 < m)%nat →
  (∀ d r size, parse_record d codec_id = Ret (r, size) → (m ≤ size ∧ m ≤ length d)%nat) →
  records_loop n data codec_id offset records = Ret (Some rs, c) →
  n = 0%nat ∨ (offset + m * n ≤ length data)%nat.
Proof.
  intros Hm Hmin. revert offset records. induction n as [|n IH]; intros offset records H;
    [by left|right].
  simpl in H. apply bind_inv in H as ([[r|] size] & Hr & H); [|done].
  apply Hmin in Hr as [Hsize Hlen]. rewrite length_drop in Hlen.
  apply IH in H as [->|H]; nia.
Qed.

(** X15. A payload from which [process_avl_data] returns k records holds at
    least 2 + 30 k bytes for codec 8 and at least 3 + 26 k bytes for codec 8
    extended: the count that is acknowledged is bounded by the bytes that
    were received, whatever the count field says. *)
Theorem records_bounded_by_payload (data : bytes) (records : list record) (codec_id : Z) :
  process_avl_data data = Ret (Some records, codec_id) →
  (codec_id = 0x08 ∧ (2 + 30 * length records ≤ length data)%nat) ∨
  (codec_id = 0x8E ∧ (3 + 26 * length records ≤ length data)%nat).
Proof.
  intros H. unfold process_avl_data in H.
  apply bind_inv in H as (c & Hc & H). apply index_within in Hc as [Hl0 _].
  destruct (Z.eqb_spec c 8) as [->|_].
  - left. apply bind_inv in H as (n & Hn & H). apply index_within in Hn as [Hl1 _].
    pose proof (records_loop_length _ _ _ _ _ _ _ H) as [Hk ->]. simpl in Hk.
    split; [done|].
    apply (records_loop_min_length 30) in H as [H0|H]; [lia|lia|lia|].
    intros d r size Hr. apply parse_record_min_size in Hr as [Hr _].
    specialize (Hr eq_refl). lia.
  - destruct (Z.eqb_spec c 142) as [->|_]; [|done].
    right. apply bind_inv in H as (n & Hn & H).
    apply (unpack_slice_within Struct.fmt_H) in Hn as [Hl1 _]; [|done]. simpl in Hl1.
    pose proof (records_loop_length _ _ _ _ _ _ _ H) as [Hk ->]. simpl in Hk.
    split; [done|].
    apply (records_loop_min_length 26) in H as [H0|H]; [lia|lia|lia|].
    intros d r size Hr. apply parse_record_min_size in Hr as [_ Hr].
    specialize (Hr eq_refl). lia.
Qed.

Lemma records_bounded_by_payload_witness :
  ∃ records,
    process_avl_data sample_frame = Ret (Some records, 0x08) ∧
    ((0x08 = 0x08 ∧ (2 + 30 * length records ≤ length sample_frame)%nat) ∨
     (0x08 = 0x8E ∧ (3 + 26 * length records ≤ length sample_frame)%nat)).
Proof.
  eexists. split; [by vm_compute|].
  apply (records_bounded_by_payload sample_frame). by vm_compute.
Defined.

(** X16. A record whose timestamp lies after the year 9999 cannot be
    converted to a date: the conversion raises, so a frame that starts with
    such a record ends the session through the exception handler and is not
    acknowledged, however well formed the rest is. *)
Theorem timestamp_after_9999_ends_session (sock : socket) (dlb more : bytes)
    (tag count : byte) (stamp rest : bytes) :
  b2z tag = 0x08 →
  b2z count ≠ 0 →
  length stamp = 8%nat →
  253402300799999 < Struct.be_uint stamp →
  Struct.unpack Struct.fmt_I dlb
    = Ret (Z.of_nat (length (tag :: count :: stamp ++ rest))) →
  avail sock = dlb ++ (tag :: count :: stamp ++ rest) ++ more →
  process_avl_data (tag :: count :: stamp ++ rest) = Raise ValueError ∧
  session_loop sock = Some ([], Error ValueError).
Proof.
  intros Htag Hcount Hlen Hts Hu Ha.
  assert (process_avl_data (tag :: count :: stamp ++ rest) = Raise ValueError) as Hp.
  { unfold process_avl_data. rewrite index_cons_0, bind_Ret, Htag.
    change (8 =? 8) with true. cbv iota.
    change (index (tag :: count :: stamp ++ rest) 1) with (Ret (b2z count)).
    rewrite bind_Ret. pose proof (b2z_range count).
    destruct (Z.to_nat (b2z count)) as [|n] eqn:En; [lia|].
    simpl records_loop. unfold parse_record.
    change (drop 2 (tag :: count :: stamp ++ rest)) with (stamp ++ rest).
    rewrite ?drop_0. rewrite <- Hlen, slice_exact. unfold Struct.unpack.
    rewrite decide_True by done. simpl Struct.signed. cbv iota.
    rewrite bind_Ret. unfold utcfromtimestamp_ms.
    destruct (Z.leb_spec (Struct.be_uint stamp) 253402300799999); [lia|done]. }
  split; [done|].
  destruct (session_loop_frame sock dlb _ more Hu ltac:(done) Ha) as (sock' & _ & ->).
  by rewrite Hp.
Qed.

Lemma timestamp_after_9999_ends_session_witness :
  253402300799999 < Struct.be_uint (Struct.be_bytes 8 253402300800000) ∧
  process_avl_data (x08 :: x01 :: Struct.be_bytes 8 253402300800000 ++ drop 10 sample_frame)
    = Raise ValueError ∧
  session_loop
    [Data [x00; x00; x00; x36];
     Data (x08 :: x01 :: Struct.be_bytes 8 253402300800000 ++ drop 10 sample_frame)]
  = Some ([], Error ValueError).
Proof.
  split; [by vm_compute|].
  apply (timestamp_after_9999_ends_session
           [Data [x00; x00; x00; x36];
            Data (x08 :: x01 :: Struct.be_bytes 8 253402300800000 ++ drop 10 sample_frame)]
           [x00; x00; x00; x36] [] x08 x01
           (Struct.be_bytes 8 253402300800000) (drop 10 sample_frame));
    by vm_compute.
Defined.

(** ** Whole frames *)

Lemma length_encode_fixed (fp : fixed_part) : length (encode_fixed fp) = 24%nat.
Proof. done. Qed.

(** A record on the wire is decoded to its fields and consumed whole, when
    its IO element is. *)
Lemma parse_record_encoded (codec_id : Z) (fp : fixed_part) (io_bytes post : bytes)
    (io : gmap Z Z) :
  fixed_ok fp →
  parse_io_element (io_bytes ++ post) codec_id = Ret (io, length io_bytes) →
  parse_record ((encode_fixed fp ++ io_bytes) ++ post) codec_id =
    Ret (Some (decoded fp io), length (encode_fixed fp ++ io_bytes)).
Proof.
  intros (Hts & Hpr & Hlon & Hlat & Halt & Hang & Hsat & Hspd) Hio.
  unfold parse_record.
  set (gpsb := encode_gps (fp_lon fp) (fp_lat fp) (fp_alt fp) (fp_angle fp)
                 (fp_sat fp) (fp_speed fp)).
  assert ((encode_fixed fp ++ io_bytes) ++ post =
          Struct.be_bytes 8 (fp_timestamp fp) ++ (z2b (fp_priority fp) :: gpsb ++ io_bytes ++ post))
    as -> by (unfold encode_fixed; fold gpsb; by rewrite <- !app_assoc).
  replace (slice (Struct.be_bytes 8 (fp_timestamp fp)
                   ++ z2b (fp_priority fp) :: gpsb ++ io_bytes ++ post) 0 8)
    with (Struct.be_bytes (Struct.calcsize Struct.fmt_Q) (fp_timestamp fp)) by done.
  rewrite StructFacts.unpack_be_bytes, bind_Ret by (done || simpl; lia).
  unfold utcfromtimestamp_ms.
  destruct (Z.leb_spec (fp_timestamp fp) 253402300799999); [|lia]. rewrite bind_Ret.
  replace (index (Struct.be_bytes 8 (fp_timestamp fp)
                   ++ z2b (fp_priority fp) :: gpsb ++ io_bytes ++ post) 8)
    with (Ret (b2z (z2b (fp_priority fp)))) by done.
  rewrite bind_Ret, b2z_z2b by done.
  replace (slice (Struct.be_bytes 8 (fp_timestamp fp)
                   ++ z2b (fp_priority fp) :: gpsb ++ io_bytes ++ post) 9 15)
    with gpsb by done.
  rewrite (gps_round_trip_fields (fp_lon fp) (fp_lat fp) (fp_alt fp) (fp_angle fp)
             (fp_sat fp) (fp_speed fp) Hlon Hlat Halt Hang Hsat Hspd : parse_gps_element gpsb = _). rewrite bind_Ret.
  replace (drop 24 (Struct.be_bytes 8 (fp_timestamp fp)
                      ++ z2b (fp_priority fp) :: gpsb ++ io_bytes ++ post))
    with (io_bytes ++ post) by done.
  rewrite Hio, bind_Ret. by rewrite length_app, length_encode_fixed.
Qed.

Lemma records_loop_S (n : nat) (data : bytes) (codec_id : Z) (offset : nat)
    (records : list record) :
  records_loop (S n) data codec_id offset records =
  '(record, size) ← parse_record (drop offset data) codec_id;
  match record with
  | None => Ret (None, codec_id)
  | Some r => records_loop n data codec_id (offset + size) (records ++ [r])
  end.
Proof. done. Qed.

Section Frames.

Context {T : Type} (codec_id : Z) (io_enc : T → bytes) (io_dec : T → gmap Z Z)
  (io_ok : T → Prop).

Hypothesis io_round_trip : ∀ t post,
  io_ok t → parse_io_element (io_enc t ++ post) codec_id = Ret (io_dec t, length (io_enc t)).

Lemma records_loop_encoded (rs : list (fixed_part * T)) (pre post : bytes)
    (records : list record) :
  Forall (λ r, fixed_ok r.1 ∧ io_ok r.2) rs →
  records_loop (length rs) (pre ++ encode_records io_enc rs ++ post) codec_id
    (length pre) records =
  Ret (Some (records ++ decoded_records io_dec rs), codec_id).
Proof.
  revert pre records. induction rs as [|[fp t] rs IH]; intros pre records Hok.
  - simpl. by rewrite app_nil_r.
  - apply Forall_cons in Hok as [[Hfp Ht] Hok]. simpl in Hfp, Ht.
    change (length ((fp, t) :: rs)) with (S (length rs)).
    change (encode_records io_enc ((fp, t) :: rs))
      with ((encode_fixed fp ++ io_enc t) ++ encode_records io_enc rs).
    set (enc := encode_fixed fp ++ io_enc t). set (encs := encode_records io_enc rs).
    rewrite records_loop_S, drop_app_length, <- app_assoc.
    unfold enc at 2.
    rewrite (parse_record_encoded codec_id fp (io_enc t) _ (io_dec t)), bind_Ret
      by (done || by apply io_round_trip).
    fold enc.
    replace (pre ++ enc ++ encs ++ post) with ((pre ++ enc) ++ encs ++ post)
      by (by rewrite <- !app_assoc).
    replace (length pre + length enc)%nat with (length (pre ++ enc))
      by (by rewrite length_app).
    unfold encs. rewrite IH by done.
    change (decoded_records io_dec ((fp, t) :: rs))
      with (decoded fp (io_dec t) :: decoded_records io_dec rs).
    by rewrite <- app_assoc.
Qed.

End Frames.

(** The IO elements of both codecs are decoded from their encodings,
    whatever follows them. *)
Lemma parse_io_element_buckets (b : buckets) (post : bytes) :
  buckets_ok b →
  parse_io_element (encode_buckets b ++ post) 0x08 =
    Ret (buckets_map b, length (encode_buckets b)).
Proof.
  intros ((Hn1 & Hf1) & (Hn2 & Hf2) & (Hn4 & Hf4) & (Hn8 & Hf8)).
  unfold encode_buckets, buckets_map.
  destruct b as [event_id element_count e1 e2 e4 e8].
  cbn [b_event b_count b_1 b_2 b_4 b_8] in *.
  set (data := encode_io8 event_id element_count e1 e2 e4 e8 ++ post).
  set (b1 := encode_bucket W1 e1). set (b2 := encode_bucket W2 e2).
  set (b4 := encode_bucket W4 e4). set (b8 := encode_bucket W8 e8).
  assert (data = [event_id; element_count] ++ b1 ++ b2 ++ b4 ++ b8 ++ post) as Hdata.
  { unfold data, encode_io8. fold b1 b2 b4 b8.
    change (([event_id; element_count] ++ b1 ++ b2 ++ b4 ++ b8) ++ post =
            [event_id; element_count] ++ b1 ++ b2 ++ b4 ++ b8 ++ post).
    by rewrite <- !app_assoc. }
  destruct (bucket_encoded W1 e1 data [event_id; element_count] (b2 ++ b4 ++ b8 ++ post)
              2 ∅ Hdata eq_refl Hn1 Hf1) as [Hi1 Hl1].
  destruct (bucket_encoded W2 e2 data ([event_id; element_count] ++ b1) (b4 ++ b8 ++ post)
              (2 + length b1) (store ∅ e1)) as [Hi2 Hl2];
    [by rewrite Hdata, <- !app_assoc|done..|].
  destruct (bucket_encoded W4 e4 data ([event_id; element_count] ++ b1 ++ b2) (b8 ++ post)
              (2 + length b1 + length b2) (store (store ∅ e1) e2)) as [Hi4 Hl4];
    [by rewrite Hdata, <- !app_assoc|
     rewrite !length_app; change (length [event_id; element_count]) with 2%nat; lia|done..|].
  destruct (bucket_encoded W8 e8 data ([event_id; element_count] ++ b1 ++ b2 ++ b4) post
              (2 + length b1 + length b2 + length b4)
              (store (store (store ∅ e1) e2) e4)) as [Hi8 Hl8];
    [by rewrite Hdata, <- !app_assoc|
     rewrite !length_app; change (length [event_id; element_count]) with 2%nat; lia|done..|].
  unfold parse_io_element. change (8 =? 8) with true. cbv iota.
  assert (index data 0 = Ret (b2z event_id)) as -> by (by rewrite Hdata).
  assert (index data 1 = Ret (b2z element_count)) as -> by (by rewrite Hdata).
  change (2 + 1)%nat with 3%nat in Hl1. fold b1 in Hl1. fold b2 in Hl2.
  fold b4 in Hl4. fold b8 in Hl8.
  rewrite !bind_Ret, Hi1, bind_Ret, Nat2Z.id, Hl1, bind_Ret.
  rewrite Hi2, bind_Ret, Nat2Z.id, Hl2, bind_Ret.
  rewrite Hi4, bind_Ret, Nat2Z.id, Hl4, bind_Ret.
  rewrite Hi8, bind_Ret, Nat2Z.id, Hl8, bind_Ret.
  f_equal. f_equal.
  - by rewrite !store_app.
  - unfold encode_io8. fold b1 b2 b4 b8.
    change (length (event_id :: element_count :: b1 ++ b2 ++ b4 ++ b8))
      with (S (S (length (b1 ++ b2 ++ b4 ++ b8)))).
    rewrite !length_app. lia.
Qed.

Lemma parse_io_element_properties (io : byte * list property) (post : bytes) :
  (length io.2 ≤ 255)%nat ∧ Forall property_ok io.2 →
  parse_io_element (encode_io8e io.1 io.2 ++ post) 0x8E =
    Ret (store ∅ (property_values io.2), length (encode_io8e io.1 io.2)).
Proof.
  destruct io as [event_id ps]. cbn [fst snd]. intros [Hn Hok].
  unfold parse_io_element, encode_io8e.
  change (142 =? 8) with false. change (142 =? 142) with true. cbv iota.
  change ((event_id :: z2b (Z.of_nat (length ps)) :: encode_properties ps) ++ post)
    with ([event_id; z2b (Z.of_nat (length ps))] ++ encode_properties ps ++ post).
  set (pre := [event_id; z2b (Z.of_nat (length ps))]).
  assert (index (pre ++ encode_properties ps ++ post) 0 = Ret (b2z event_id)) as -> by done.
  assert (index (pre ++ encode_properties ps ++ post) 1 = Ret (Z.of_nat (length ps))) as ->.
  { unfold index, pre. simpl. f_equal. apply b2z_z2b. lia. }
  rewrite !bind_Ret, Nat2Z.id.
  change 2%nat with (length pre) at 1.
  by rewrite properties_loop_encoded.
Qed.

(** The pass of the loop over a frame that decodes: the count of its
    records goes out as four big-endian bytes and the loop goes on. *)
Lemma session_loop_decoded (sock : socket) (dlb payload more : bytes)
    (records : list record) (codec_id : Z) :
  process_avl_data payload = Ret (Some records, codec_id) →
  Struct.unpack Struct.fmt_I dlb = Ret (Z.of_nat (length payload)) →
  avail sock = dlb ++ payload ++ more →
  ∃ sock', avail sock' = more ∧
    session_loop sock =
      '(sent, why) ← session_loop sock';
      Some (Struct.be_bytes 4 (Z.of_nat (length records)) :: sent, why).
Proof.
  intros Hp Hu Ha. destruct (process_avl_data_count _ _ _ Hp) as [_ Hr].
  assert (payload ≠ []) as Hne by (by intros ->).
  destruct (session_loop_frame sock dlb payload more Hu Hne Ha) as (sock' & Ha' & ->).
  rewrite Hp. unfold Struct.pack. rewrite bool_decide_true by (simpl; lia).
  by exists sock'.
Qed.

(** X17. The codec 8 frame round trip: a payload made of the tag 0x08, a
    count byte k and the encodings of k ≤ 255 well-formed records decodes to
    exactly those k records, in order, whatever bytes follow them; and the
    loop that reads such a frame sends k as four big-endian bytes and goes on
    with what follows the frame. *)
Theorem codec8_frame_round_trip (rs : list (fixed_part * buckets)) (trailer : bytes) :
  (length rs ≤ 255)%nat →
  Forall (λ r, fixed_ok r.1 ∧ buckets_ok r.2) rs →
  process_avl_data (encode_frame8 rs ++ trailer) =
    Ret (Some (decoded_records buckets_map rs), 0x08) ∧
  ∀ sock dlb more,
    Struct.unpack Struct.fmt_I dlb = Ret (Z.of_nat (length (encode_frame8 rs ++ trailer))) →
    avail sock = dlb ++ (encode_frame8 rs ++ trailer) ++ more →
    ∃ sock', avail sock' = more ∧
      session_loop sock =
        '(sent, why) ← session_loop sock';
        Some (Struct.be_bytes 4 (Z.of_nat (length rs)) :: sent, why).
Proof.
  intros Hn Hok.
  assert (process_avl_data (encode_frame8 rs ++ trailer) =
          Ret (Some (decoded_records buckets_map rs), 0x08)) as Hp.
  { unfold process_avl_data, encode_frame8.
    set (count := z2b (Z.of_nat (length rs))).
    change ((x08 :: count :: encode_records encode_buckets rs) ++ trailer)
      with ([x08; count] ++ encode_records encode_buckets rs ++ trailer).
    set (data := [x08; count] ++ encode_records encode_buckets rs ++ trailer).
    change (index data 0) with (Ret 8). rewrite bind_Ret.
    change (8 =? 8) with true. cbv iota.
    assert (index data 1 = Ret (Z.of_nat (length rs))) as ->.
    { unfold data, index, count. simpl. f_equal. apply b2z_z2b. lia. }
    rewrite bind_Ret, Nat2Z.id. unfold data.
    change 2%nat with (length [x08; count]).
    by rewrite (records_loop_encoded 0x08 encode_buckets buckets_map buckets_ok
                  (λ t post, parse_io_element_buckets t post)). }
  split; [done|]. intros sock dlb more Hu Ha.
  destruct (session_loop_decoded _ _ _ _ _ _ Hp Hu Ha) as (sock' & Ha' & Hs).
  exists sock'. split; [done|]. rewrite Hs.
  unfold decoded_records. by rewrite length_map.
Qed.

(** X18. The codec 8 extended frame round trip: a payload made of the tag
    0x8E, a two-byte big-endian count k and the encodings of k ≤ 65535
    well-formed records decodes to exactly those k records, in order,
    whatever bytes follow them; and the loop that reads such a frame sends k
    as four big-endian bytes and goes on with what follows the frame. *)
Theorem codec8e_frame_round_trip (rs : list (fixed_part * (byte * list property)))
    (trailer : bytes) :
  Z.of_nat (length rs) < 65536 →
  Forall (λ r, fixed_ok r.1 ∧ ((length r.2.2 ≤ 255)%nat ∧ Forall property_ok r.2.2)) rs →
  process_avl_data (encode_frame8e rs ++ trailer) =
    Ret (Some (decoded_records (λ io, store ∅ (property_values io.2)) rs), 0x8E) ∧
  ∀ sock dlb more,
    Struct.unpack Struct.fmt_I dlb = Ret (Z.of_nat (length (encode_frame8e rs ++ trailer))) →
    avail sock = dlb ++ (encode_frame8e rs ++ trailer) ++ more →
    ∃ sock', avail sock' = more ∧
      session_loop sock =
        '(sent, why) ← session_loop sock';
        Some (Struct.be_bytes 4 (Z.of_nat (length rs)) :: sent, why).
Proof.
  intros Hn Hok.
  set (io_enc := λ io : byte * list property, encode_io8e io.1 io.2) in *.
  set (io_dec := λ io : byte * list property, store ∅ (property_values io.2)) in *.
  assert (process_avl_data (encode_frame8e rs ++ trailer) =
          Ret (Some (decoded_records io_dec rs), 0x8E)) as Hp.
  { unfold process_avl_data, encode_frame8e. fold io_enc.
    set (count := Struct.be_bytes 2 (Z.of_nat (length rs))).
    assert ((x8e :: count ++ encode_records io_enc rs) ++ trailer
            = (x8e :: count) ++ encode_records io_enc rs ++ trailer) as ->.
    { change (x8e :: (count ++ encode_records io_enc rs) ++ trailer
              = x8e :: count ++ encode_records io_enc rs ++ trailer).
      by rewrite <- app_assoc. }
    set (data := (x8e :: count) ++ encode_records io_enc rs ++ trailer).
    change (index data 0) with (Ret 142). rewrite bind_Ret.
    change (142 =? 8) with false. change (142 =? 142) with true. cbv iota.
    change (slice data 1 2) with (Struct.be_bytes (Struct.calcsize Struct.fmt_H)
                                    (Z.of_nat (length rs))).
    rewrite StructFacts.unpack_be_bytes, bind_Ret, Nat2Z.id by (done || simpl; lia).
    unfold data. change 3%nat with (length (x8e :: count)).
    by rewrite (records_loop_encoded 0x8E io_enc io_dec
                  (λ io, (length io.2 ≤ 255)%nat ∧ Forall property_ok io.2)
                  (λ t post, parse_io_element_properties t post)). }
  split; [done|]. intros sock dlb more Hu Ha.
  destruct (session_loop_decoded _ _ _ _ _ _ Hp Hu Ha) as (sock' & Ha' & Hs).
  exists sock'. split; [done|]. rewrite Hs.
  unfold decoded_records. by rewrite length_map.
Qed.

Lemma sample_reading_ok : fixed_ok sample_reading.1 ∧ buckets_ok sample_reading.2.
Proof.
  split.
  - unfold fixed_ok. simpl. lia.
  - unfold buckets_ok. simpl.
    repeat split; try lia; repeat apply List.Forall_cons; try apply List.Forall_nil;
      unfold fits; simpl; lia.
Qed.

Lemma codec8_frame_round_trip_witness :
  encode_frame8 [sample_reading] ++ [x01] = sample_frame ∧
  process_avl_data (encode_frame8 [sample_reading] ++ [x01]) =
    Ret (Some (decoded_records buckets_map [sample_reading]), 0x08).
Proof.
  split; [reflexivity|].
  apply (codec8_frame_round_trip [sample_reading] [x01]); [simpl; lia|].
  apply List.Forall_cons; [exact sample_reading_ok|apply List.Forall_nil].
Defined.

Lemma extended_readings_ok :
  Forall (λ r, fixed_ok r.1 ∧ ((length r.2.2 ≤ 255)%nat ∧ Forall property_ok r.2.2))
    extended_readings.
Proof.
  repeat apply List.Forall_cons; try apply List.Forall_nil;
    (split; [unfold fixed_ok; simpl; lia|]); (split; [simpl; lia|]);
    repeat apply List.Forall_cons; try apply List.Forall_nil;
    unfold property_ok; simpl; lia.
Qed.

Lemma codec8e_frame_round_trip_witness :
  process_avl_data (encode_frame8e extended_readings ++ [x02; x00; x00; x00; x00]) =
    Ret (Some (decoded_records (λ io, store ∅ (property_values io.2)) extended_readings),
         0x8E).
Proof.
  apply (codec8e_frame_round_trip extended_readings [x02; x00; x00; x00; x00]);
    [simpl; lia|exact extended_readings_ok].
Defined.

(** ** Successive cycles of the loop *)

Lemma session_loop_keepalive (sock : socket) (more : bytes) :
  avail sock = [x00; x00; x00; x00] ++ more →
  ∃ sock', avail sock' = more ∧ session_loop sock = session_loop sock'.
Proof.
  intros Ha.
  destruct (receive_all_prefix sock [x00; x00; x00; x00] more Ha) as (sock' & Hr & Ha' & Hb).
  exists sock'. split; [done|]. unfold session_loop at 1. simpl avl_loop.
  simpl in Hr. rewrite Hr. simpl.
  apply avl_loop_session_loop. simpl in Hb. lia.
Qed.

(** X19. Cycles compose: when the device sends any sequence of keepalives
    and frames that decode, and then closes or goes idle, the loop sends
    exactly one acknowledgement per frame, in the order of the frames, each
    the count of that frame's records, sends nothing for the keepalives, and
    ends waiting for a length field. *)
Theorem cycles_acknowledged_in_order (sock : socket) (cs : list cycle) (rest : bytes) :
  Forall cycle_ok cs →
  avail sock = cycles_bytes cs ++ rest →
  (length rest < 4)%nat →
  session_loop sock = Some (cycles_acks cs, NoDataLength).
Proof.
  revert sock. induction cs as [|c cs IH]; intros sock Hok Ha Hrest.
  - simpl in Ha. unfold session_loop. simpl.
    destruct (receive_all_none sock 4) as (sock' & ->); [by rewrite Ha|done].
  - apply Forall_cons in Hok as [Hc Hok].
    change (cycles_bytes (c :: cs)) with (cycle_bytes c ++ cycles_bytes cs) in Ha.
    rewrite <- app_assoc in Ha. destruct c as [|payload records].
    + destruct (session_loop_keepalive sock _ Ha) as (sock' & Ha' & ->).
      by apply IH.
    + destruct Hc as [Hlen [codec_id Hp]].
      change (cycle_bytes (Frame payload records))
        with (Struct.be_bytes 4 (Z.of_nat (length payload)) ++ payload) in Ha.
      rewrite <- app_assoc in Ha.
      destruct (session_loop_decoded sock
                  (Struct.be_bytes 4 (Z.of_nat (length payload))) payload
                  (cycles_bytes cs ++ rest) records codec_id Hp)
        as (sock' & Ha' & ->); [|done|].
      { apply (StructFacts.unpack_be_bytes Struct.fmt_I); [done|simpl; lia]. }
      by rewrite (IH sock' Hok Ha' Hrest).
Qed.

Lemma cycles_acknowledged_in_order_witness :
  ∃ records,
    process_avl_data sample_frame = Ret (Some records, 0x08) ∧
    session_loop
      [Data [x00; x00; x00; x00; x00; x00]; Data ([x00; x36] ++ sample_frame);
       Data [x00; x00; x00; x00]; Data ([x00; x00; x00; x36] ++ sample_frame); Timeout]
    = Some (cycles_acks [Keepalive; Frame sample_frame records; Keepalive;
                         Frame sample_frame records], NoDataLength).
Proof.
  eexists. split; [by vm_compute|].
  apply (cycles_acknowledged_in_order _ _ []); [|reflexivity|simpl; lia].
  repeat apply List.Forall_cons; try apply List.Forall_nil; try exact I;
    (split; [by vm_compute|exists 0x08; by vm_compute]).
Defined.


(** * Skipped entries and truncated records *)

Lemma encode_properties_app (ps qs : list property) :
  encode_properties (ps ++ qs) = encode_properties ps ++ encode_properties qs.
Proof.
  induction ps as [|p ps IH]; [done|]. simpl. by rewrite IH, app_assoc.
Qed.

Lemma property_values_app (ps qs : list property) :
  property_values (ps ++ qs) = property_values ps ++ property_values qs.
Proof.
  induction ps as [|[io_id w v|io_id raw] ps IH]; simpl; [done| |done].
  by rewrite IH.
Qed.

(** C6. In the codec 8 extended IO element, an entry that declares a value
    length other than 1, 2, 4 or 8 is stepped over wherever it stands: the
    element made of the entries [before], the entry (id, length, that many
    bytes) and the entries [after] decodes to the map of [before] and
    [after] alone, with nothing for the id of the skipped entry, and consumes
    the two header bytes, the encodings of [before] and [after] and, for the
    skipped entry, its id byte, its length byte and exactly the declared
    number of bytes; the entries after it are decoded, not lost. *)
Theorem unsupported_length_skipped (event_id : byte) (before after : list property)
    (io_id : Z) (raw post : bytes) :
  (length (before ++ Opaque io_id raw :: after) ≤ 255)%nat →
  Forall property_ok before →
  property_ok (Opaque io_id raw) →
  Forall property_ok after →
  encode_io8e event_id (before ++ Opaque io_id raw :: after) =
    event_id :: z2b (Z.of_nat (length before + S (length after))) ::
      encode_properties before
      ++ (z2b io_id :: z2b (Z.of_nat (length raw)) :: raw)
      ++ encode_properties after
  ∧ parse_io_element
      (encode_io8e event_id (before ++ Opaque io_id raw :: after) ++ post) 0x8E =
    Ret (store ∅ (property_values before ++ property_values after),
         (2 + length (encode_properties before) + (2 + length raw)
          + length (encode_properties after))%nat).
Proof.
  intros Hn Hbefore Hskip Hafter. split.
  - unfold encode_io8e. rewrite length_app, encode_properties_app. done.
  - assert (Forall property_ok (before ++ Opaque io_id raw :: after)) as Hok.
    { apply Forall_app. split; [done|]. by apply List.Forall_cons. }
    pose proof (parse_io_element_properties
                  (event_id, before ++ Opaque io_id raw :: after) post (conj Hn Hok)) as Hp.
    cbn [fst snd] in Hp. rewrite Hp, property_values_app. f_equal. f_equal.
    unfold encode_io8e. rewrite encode_properties_app.
    change (encode_properties (Opaque io_id raw :: after))
      with ((z2b io_id :: z2b (Z.of_nat (length raw)) :: raw) ++ encode_properties after).
    change (length (event_id :: ?c :: ?l)) with (S (S (length l))).
    rewrite !length_app. simpl. lia.
Qed.

(** The example of the specification: an entry of id 5 declaring 16 value
    bytes, followed by an entry of id 6 with the one-byte value 9. *)
Lemma unsupported_length_skipped_witness :
  property_ok (Opaque 5 (replicate 16 xff)) ∧
  Forall property_ok [Value 6 W1 9] ∧
  encode_io8e x00 ([] ++ Opaque 5 (replicate 16 xff) :: [Value 6 W1 9])
    = io_with_16_byte_entry ∧
  parse_io_element io_with_16_byte_entry 0x8E = Ret ({[ 6 := 9 ]}, 23%nat).
Proof.
  assert (property_ok (Opaque 5 (replicate 16 xff))) as Hskip
    by (unfold property_ok; simpl; lia).
  assert (Forall property_ok [Value 6 W1 9]) as Hafter.
  { apply List.Forall_cons; [|apply List.Forall_nil]. unfold property_ok. simpl. lia. }
  split_and!; [exact Hskip|exact Hafter|reflexivity|].
  apply (unsupported_length_skipped x00 [] [Value 6 W1 9] 5 (replicate 16 xff) []);
    [simpl; lia|apply List.Forall_nil|exact Hskip|exact Hafter].
Defined.






Example cut_sample_frame_session :
  session_loop [Data [x00; x00; x00; x1e]; Data (take 30 sample_frame)]
  = Some ([], Error IndexError).
Proof. by vm_compute. Qed.

